(** * unblob: chunk model, chunk reconciliation, task processing, exit code

    A shallow embedding of the parts of [unblob/models.py],
    [unblob/processing.py], [unblob/cli.py] and
    [unblob/handlers/filesystem/netgear.py] that the properties below are
    about.  Python integers are unbounded, so offsets are [Z].  Whatever
    can be raised is a value of the type [BaseException]; a computation
    that may raise returns an [Outcome]. *)

From Stdlib Require Import ZArith List Bool Lia String Ascii.
From Stdlib Require Import Permutation Sorted.
From Stdlib Require Import Strings.Byte Strings.HexString.
Import ListNotations.
Open Scope Z_scope.

(* ===================================================================== *)
(** * Definitions *)
(* ===================================================================== *)

(** ** Reports and exceptions *)

Inductive Severity : Type := ERROR | WARNING | INFO.

Definition Severity_eqb (a b : Severity) : bool :=
  match a, b with
  | ERROR, ERROR | WARNING, WARNING | INFO, INFO => true
  | _, _ => false
  end.

(** What the modelled code raises or lets through, and the reports it
    stores.  [ExtractError] carries reports, [UnknownError] carries the
    exception it was built from.  [KeyboardInterrupt] and [SystemExit] are
    Python's exceptions outside the class [Exception]. *)
Inductive BaseException : Type :=
| InvalidInputFormat (msg : string)
| ExtractError (reports : list Report)
| EOFError
| OSError (msg : string)
| AttributeError (name : string)
| KeyboardInterrupt
| SystemExit (code : Z)
with Report : Type :=
| UnknownError (exception : BaseException)
| ErrorReport (sev : Severity) (kind : string).

(** [isinstance(e, Exception)]: what an [except Exception] clause
    catches. *)
Definition is_Exception (e : BaseException) : bool :=
  match e with
  | KeyboardInterrupt | SystemExit _ => false
  | _ => true
  end.

(** Modelled from the spec: [unblob/report.py] is not part of the sources.
    Every report has a severity; an [UnknownError] is an error report. *)
Definition severity (r : Report) : Severity :=
  match r with
  | UnknownError _ => ERROR
  | ErrorReport s _ => s
  end.

Inductive Outcome (A : Type) : Type :=
| Ok (a : A)
| Raise (e : BaseException).
Arguments Ok {A} a.
Arguments Raise {A} e.

Definition obind {A B : Type} (m : Outcome A) (f : A -> Outcome B) : Outcome B :=
  match m with
  | Ok a => f a
  | Raise e => Raise e
  end.

Declare Scope outcome_scope.
Delimit Scope outcome_scope with outcome.
Notation "x <- m ;; k" := (obind m (fun x => k))
  (at level 61, m at next level, right associativity) : outcome_scope.

(** ** models.py *)

Definition Path : Type := string.
Bind Scope string_scope with Path.

Record Task : Type := mkTask {
  root : Path;
  path : Path;
  depth : Z
}.

Record Extractor : Type := mkExtractor {
  dependencies : list string
}.

Record Handler : Type := mkHandler {
  NAME : string;
  EXTRACTOR : option Extractor
}.

Record Chunk : Type := mkChunk {
  start_offset : Z;
  end_offset : Z
}.

(** [format(n, "x")]: the hexadecimal digits of [n] in lower case, no
    leading zero, a minus sign first for a negative number. *)
Definition format_x (n : Z) : string :=
  match n with
  | Z0 => "0"
  | Zpos p => HexString.Raw.of_pos p ""
  | Zneg p => String "-" (HexString.Raw.of_pos p "")
  end.

(** [Chunk.range_hex], also [Chunk.__repr__]. *)
Definition range_hex (self : Chunk) : string :=
  ("0x" ++ format_x (start_offset self) ++ "-0x" ++ format_x (end_offset self))%string.

(** [InvalidInputFormat(f"{why}: {self}")]. *)
Definition chunk_error (why : string) (self : Chunk) : BaseException :=
  InvalidInputFormat (why ++ ": " ++ range_hex self)%string.

(** [Chunk.__attrs_post_init__]: the check run by every constructor call. *)
Definition Chunk_init (s e : Z) : Outcome Chunk :=
  let self := mkChunk s e in
  if (s <? 0) || (e <? 0) then
    Raise (chunk_error "Chunk has negative offset" self)
  else if s >=? e then
    Raise (chunk_error "Chunk has higher start_offset than end_offset" self)
  else Ok self.

Definition size (c : Chunk) : Z := end_offset c - start_offset c.

Definition contains (self other : Chunk) : bool :=
  (start_offset self <? start_offset other)
  && (end_offset self >=? end_offset other).

Definition contains_offset (self : Chunk) (offset : Z) : bool :=
  (start_offset self <=? offset) && (offset <? end_offset self).

(** [ValidChunk] and [UnknownChunk] are subclasses of [Chunk]. *)
Record ValidChunk : Type := mkValidChunk {
  valid_base :> Chunk;
  handler : option Handler;
  is_encrypted : bool
}.

Record UnknownChunk : Type := mkUnknownChunk {
  unknown_base :> Chunk
}.

(** [ValidChunk(start_offset=s, end_offset=e, is_encrypted=enc)]; the
    handler attribute has [init=False]: it is unset after construction. *)
Definition ValidChunk_init (s e : Z) (enc : bool) : Outcome ValidChunk :=
  (c <- Chunk_init s e ;; Ok (mkValidChunk c None enc))%outcome.

Definition UnknownChunk_init (s e : Z) : Outcome UnknownChunk :=
  (c <- Chunk_init s e ;; Ok (mkUnknownChunk c))%outcome.

Record TaskResult : Type := mkTaskResult {
  task : option Task;
  reports : list Report;
  new_tasks : list Task
}.

Definition TaskResult_init (t : Task) : TaskResult := mkTaskResult (Some t) [] [].

Definition add_report (r : TaskResult) (report : Report) : TaskResult :=
  mkTaskResult (task r) (reports r ++ [report]) (new_tasks r).

Definition add_new_task (r : TaskResult) (t : Task) : TaskResult :=
  mkTaskResult (task r) (reports r) (new_tasks r ++ [t]).

(** ** Python's [sorted(l, key=..., reverse=...)]

    [sorted] is a stable sort, also with [reverse=True]: elements with
    equal keys keep their input order.  A stable sort is determined by that
    property; insertion from the right is one. *)
Section Sorted.
Context {A : Type} (key : A -> Z) (reverse : bool).

Definition key_before (y x : A) : bool :=
  if reverse then key x <? key y else key y <? key x.

Fixpoint insert_sorted (x : A) (l : list A) : list A :=
  match l with
  | [] => [x]
  | y :: r => if key_before y x then y :: insert_sorted x r else x :: y :: r
  end.

Definition sorted (l : list A) : list A := fold_right insert_sorted [] l.

(** [key_le x y]: [x] may stand before [y] in the sorted list. *)
Definition key_le (x y : A) : Prop :=
  if reverse then key y <= key x else key x <= key y.

Definition key_lt (x y : A) : Prop :=
  if reverse then key y < key x else key x < key y.

(** Sorted by key, equal keys ordered by [R]. *)
Definition key_then (R : A -> A -> Prop) (x y : A) : Prop :=
  key_lt x y \/ (key x = key y /\ R x y).

End Sorted.

(** Modelled from the spec: [unblob/iter_utils.py] is not part of the
    sources; [pairwise] yields every adjacent pair, in order. *)
Fixpoint pairwise {A : Type} (l : list A) : list (A * A) :=
  match l with
  | a :: ((b :: _) as r) => (a, b) :: pairwise r
  | _ => []
  end.

(** ** processing.py: the chunk reconciler *)

(** The loop of [remove_inner_chunks]: [outer_chunks] grows by the chunks no
    accepted chunk contains. *)
Fixpoint remove_inner_loop (outer_chunks rest : list ValidChunk) : list ValidChunk :=
  match rest with
  | [] => outer_chunks
  | chunk :: rest' =>
      if negb (existsb (fun outer : ValidChunk => contains outer chunk) outer_chunks)
      then remove_inner_loop (outer_chunks ++ [chunk]) rest'
      else remove_inner_loop outer_chunks rest'
  end.

Definition remove_inner_chunks (chunks : list ValidChunk) : list ValidChunk :=
  match chunks with
  | [] => []
  | _ =>
      let chunks_by_size := sorted (fun c : ValidChunk => size c) true chunks in
      match chunks_by_size with
      | [] => []
      | first :: rest => remove_inner_loop [first] rest
      end
  end.

(** The [for chunk, next_chunk in pairwise(...)] loop of
    [calculate_unknown_chunks]. *)
Fixpoint unknown_between (pairs : list (ValidChunk * ValidChunk))
    (unknown_chunks : list UnknownChunk) : Outcome (list UnknownChunk) :=
  match pairs with
  | [] => Ok unknown_chunks
  | (chunk, next_chunk) :: pairs' =>
      let diff := start_offset next_chunk - end_offset chunk in
      if negb (diff =? 0) then
        (unknown_chunk <- UnknownChunk_init (end_offset chunk) (start_offset next_chunk) ;;
         unknown_between pairs' (unknown_chunks ++ [unknown_chunk]))%outcome
      else unknown_between pairs' unknown_chunks
  end.

Definition is_empty {A : Type} (l : list A) : bool :=
  match l with [] => true | _ => false end.

Definition calculate_unknown_chunks (chunks : list ValidChunk) (file_size : Z)
  : Outcome (list UnknownChunk) :=
  if is_empty chunks || (file_size =? 0) then Ok []
  else
    let sorted_by_offset := sorted (fun c : ValidChunk => start_offset c) false chunks in
    match sorted_by_offset with
    | [] => Ok []
    | first :: _ =>
        (unknown_chunks <-
           (if negb (start_offset first =? 0) then
              (unknown_chunk <- UnknownChunk_init 0 (start_offset first) ;;
               Ok [unknown_chunk])
            else Ok []) ;;
         unknown_chunks <- unknown_between (pairwise sorted_by_offset) unknown_chunks ;;
         let last := List.last sorted_by_offset first in
         if end_offset last <? file_size then
           (unknown_chunk <- UnknownChunk_init (end_offset last) file_size ;;
            Ok (unknown_chunks ++ [unknown_chunk]))
         else Ok unknown_chunks)%outcome
    end.

(** ** handlers/filesystem/netgear.py *)

(** An open binary file: its bytes and the read position. *)
Record File : Type := mkFile {
  content : list byte;
  position : nat
}.

(** [file.read(n)]: up to [n] bytes from the read position, which moves
    past them. *)
Definition File_read (file : File) (n : Z) : list byte * File :=
  let data := firstn (Z.to_nat n) (skipn (position file) (content file)) in
  (data, mkFile (content file) (position file + List.length data)).

Inductive Endian : Type := LITTLE | BIG.

Definition byte_value (b : byte) : Z := Z.of_N (Byte.to_N b).

(** The unsigned integer a byte string denotes, most significant byte
    first. *)
Definition decode_be (bs : list byte) : Z :=
  fold_left (fun acc b => acc * 256 + byte_value b) bs 0.

Definition decode_uint (endian : Endian) (bs : list byte) : Z :=
  match endian with
  | BIG => decode_be bs
  | LITTLE => decode_be (rev bs)
  end.

(** [CHK_HEADER]: the C declaration of [chk_header_t], field by field. *)
Record chk_header : Type := mk_chk_header {
  magic : Z;
  header_len : Z;
  reserved : list byte;
  kernel_chksum : Z;
  rootfs_chksum : Z;
  kernel_len : Z;
  rootfs_len : Z;
  image_chksum : Z;
  header_chksum : Z
}.

(** [len(header)]: nine [uint32] fields and eight reserved bytes. *)
Definition chk_header_size : Z := 40.

Definition field (endian : Endian) (bs : list byte) (offset : nat) : Z :=
  decode_uint endian (firstn 4 (skipn offset bs)).

(** Modelled from the spec: [StructParser] of [unblob/file_utils.py] is not
    part of the sources.  The header is read at the file position with
    byte-order-aware integer reads at the offsets the C declaration gives;
    a file too short for the structure raises [EOFError]. *)
Definition parse_header (file : File) (endian : Endian) : Outcome chk_header * File :=
  let (bs, file') := File_read file chk_header_size in
  if (List.length bs <? Z.to_nat chk_header_size)%nat then (Raise EOFError, file')
  else
    (Ok (mk_chk_header
           (field endian bs 0) (field endian bs 4)
           (firstn 8 (skipn 8 bs))
           (field endian bs 16) (field endian bs 20)
           (field endian bs 24) (field endian bs 28)
           (field endian bs 32) (field endian bs 36)),
     file').

(** [NetgearCHKHandler.calculate_chunk]; the result is
    [Optional[ValidChunk]].  [logger.debug] has no effect on it. *)
Definition calculate_chunk (file : File) (start_offset : Z)
  : Outcome (option ValidChunk) * File :=
  match parse_header file BIG with
  | (Raise e, file) => (Raise e, file)
  | (Ok header, file) =>
      let header_len' := chk_header_size in
      let '(board_id, file) :=
        if header_len' <? header_len header then
          let (data, file) := File_read file (header_len header - chk_header_size) in
          (Some data, file)
        else (None, file) in
      ((chunk <- ValidChunk_init start_offset
                   (start_offset + header_len header + kernel_len header
                    + rootfs_len header) false ;;
        Ok (Some chunk))%outcome,
       file)
  end.

(** ** cli.py *)

(** Modelled from the spec: [unblob/report.py] is not part of the sources.
    [Reports] is an ordered sequence of reports, each with a severity;
    [errors] are the reports of the collection. *)
Definition Reports : Type := list Report.

Definition errors (reports : Reports) : list Report := reports.

(** [severity in severities], on the set built from a list. *)
Definition severity_in (s : Severity) (severities : list Severity) : bool :=
  existsb (Severity_eqb s) severities.

Fixpoint first_exit_code (table : list (Severity * Z)) (severities : list Severity) : Z :=
  match table with
  | [] => 0
  | (severity, exit_code) :: table' =>
      if severity_in severity severities then exit_code
      else first_exit_code table' severities
  end.

Definition get_exit_code_from_reports (reports : Reports) : Z :=
  let severity_to_exit_code := [(ERROR, 1); (WARNING, 0)] in
  let severities := map severity (errors reports) in
  first_exit_code severity_to_exit_code severities.

(** ** processing.py: tasks *)

Definition Handlers : Type := list (list Handler).

Record ExtractionConfig : Type := mkExtractionConfig {
  extract_root : Path;
  entropy_depth : Z;
  entropy_plot : bool;
  max_depth : Z;
  process_num : Z;
  keep_extracted_chunks : bool;
  handlers : Handlers
}.

(** [stat.S_ISDIR] and [stat.S_ISLNK] of Python's standard library. *)
Definition S_IFMT (mode : Z) : Z := Z.land mode 61440.
Definition S_ISDIR (mode : Z) : bool := S_IFMT mode =? 16384.
Definition S_ISLNK (mode : Z) : bool := S_IFMT mode =? 40960.

(** What a task does outside this module, in order: log lines and calls
    into the file system, the finder, the carver and the extractors. *)
Inductive Event : Type :=
| LogDebug (msg : string)
| LogWarning (msg : string)
| LogException (msg : string)
| CallLstat (p : Path)
| CallIterdir (p : Path)
| CallOpen (p : Path)
| CallSearchChunks (p : Path)
| CallMakeExtractDir (p : Path)
| CallCarveUnknownChunks (extract_dir : Path) (chunks : list UnknownChunk)
| CallCarveValidChunk (extract_dir : Path) (chunk : ValidChunk)
| CallCalculateEntropy (p : Path)
| CallMkdir (outdir : Path)
| CallExtractor (e : Extractor) (inpath outdir : Path)
| CallUnlink (p : Path)
| CallFixExtractedDirectory (outdir : Path)
| CallExists (p : Path).

(** The modules [processing.py] imports and the sources do not include
    ([extractor], [file_utils], [finder], [profiling], [math]) and the file
    system, as an interface.  [World] is the state they act on.
    [fix_extracted_directory] gives the reports it adds to the result and
    whether it returns or raises.  [PerfCounter] is a timing context
    manager: leaving it may append profiling reports to the result.  [calculate_entropy] reads a carved
    file and logs floating-point statistics; it returns nothing, so it is
    kept behind the interface as well. *)
Class Externals : Type := {
  World : Type;
  valid_path : Path -> bool;
  lstat : Path -> World -> Outcome (Z * Z);
  iterdir : Path -> World -> Outcome (list Path);
  open_rb : Path -> World -> Outcome Path;
  search_chunks_by_priority :
    Path -> Path -> Z -> Handlers -> TaskResult -> World ->
    Outcome (list ValidChunk) * TaskResult;
  make_extract_dir : Path -> Path -> Path -> World -> Outcome Path * World;
  carve_unknown_chunks :
    Path -> Path -> list UnknownChunk -> World -> Outcome (list Path) * World;
  carve_valid_chunk : Path -> Path -> ValidChunk -> World -> Outcome Path * World;
  get_extract_paths : Path -> Path -> Path * Path;
  fix_extracted_directory : Path -> World -> Outcome unit * list Report * World;
  path_exists : Path -> World -> Outcome bool;
  unlink : Path -> World -> Outcome unit * World;
  mkdir : Path -> World -> Outcome unit * World;
  extractor_extract : Extractor -> Path -> Path -> World -> Outcome unit * World;
  calculate_entropy : Path -> bool -> World -> Outcome unit;
  perf_counter_reports : string -> World -> list Report
}.

Section Processing.
Context {X : Externals}.

(** The state a task runs in: the world, the [TaskResult] the task fills
    in, and the trace of what it did. *)
Record State : Type := mkState {
  world : World;
  result : TaskResult;
  trace : list Event
}.

(** A statement of the task code: it may change the state and may raise. *)
Definition M (A : Type) : Type := State -> Outcome A * State.

Definition ret {A : Type} (a : A) : M A := fun st => (Ok a, st).

Definition bind {A B : Type} (m : M A) (f : A -> M B) : M B :=
  fun st =>
    match m st with
    | (Ok a, st') => f a st'
    | (Raise e, st') => (Raise e, st')
    end.

Definition raise {A : Type} (e : BaseException) : M A := fun st => (Raise e, st).

(** [try: body except Exception as exc: handler(exc)]: an exception
    outside the class [Exception] is not caught. *)
Definition try_except {A : Type} (body : M A) (handler : BaseException -> M A) : M A :=
  fun st =>
    match body st with
    | (Ok a, st') => (Ok a, st')
    | (Raise e, st') => if is_Exception e then handler e st' else (Raise e, st')
    end.

Definition lift {A : Type} (o : Outcome A) : M A := fun st => (o, st).

Definition emit (ev : Event) : M unit :=
  fun st => (Ok tt, mkState (world st) (result st) (trace st ++ [ev])).

Definition set_world (w : World) : M unit :=
  fun st => (Ok tt, mkState w (result st) (trace st)).

Definition get_world : M World := fun st => (Ok (world st), st).

Definition result_add_report (r : Report) : M unit :=
  fun st => (Ok tt, mkState (world st) (add_report (result st) r) (trace st)).

Definition result_add_new_task (t : Task) : M unit :=
  fun st => (Ok tt, mkState (world st) (add_new_task (result st) t) (trace st)).

Fixpoint for_each {A : Type} (l : list A) (body : A -> M unit) : M unit :=
  match l with
  | [] => ret tt
  | a :: l' => bind (body a) (fun _ => for_each l' body)
  end.

(** A call that reads the world. *)
Definition query {A : Type} (ev : Event) (f : World -> Outcome A) : M A :=
  bind (emit ev) (fun _ => bind get_world (fun w => lift (f w))).

(** A call that changes the world. *)
Definition call {A : Type} (ev : Event) (f : World -> Outcome A * World) : M A :=
  bind (emit ev) (fun _ =>
  bind get_world (fun w =>
  let (o, w') := f w in
  bind (set_world w') (fun _ => lift o))).

(** [with PerfCounter(result, name): body]. *)
Definition PerfCounter {A : Type} (name : string) (body : M A) : M A :=
  fun st =>
    let (o, st') := body st in
    (o, mkState (world st')
          (fold_left add_report (perf_counter_reports name (world st')) (result st'))
          (trace st')).

End Processing.

Declare Scope task_scope.
Delimit Scope task_scope with task.
Notation "x <- m ;; k" := (bind m (fun x => k))
  (at level 61, m at next level, right associativity) : task_scope.
Notation "m ;; k" := (bind m (fun _ => k))
  (at level 61, right associativity) : task_scope.

Section Processor.
Context {X : Externals}.
Variable config : ExtractionConfig.
Open Scope task_scope.

Definition _calculate_entropies (task : Task) (paths : list Path) : M unit :=
  if depth task <? entropy_depth config then
    for_each paths (fun p =>
      query (CallCalculateEntropy p) (calculate_entropy p (entropy_plot config)))
  else ret tt.

(** [Handler.extract]. *)
Definition Handler_extract (self : Handler) (inpath outdir : Path) : M unit :=
  match EXTRACTOR self with
  | None =>
      emit (LogDebug "Skipping file: no extractor.") ;;
      raise (ExtractError [])
  | Some extractor =>
      call (CallMkdir outdir) (mkdir outdir) ;;
      call (CallExtractor extractor inpath outdir)
           (extractor_extract extractor inpath outdir)
  end.

(** [ValidChunk.extract].  A chunk whose handler was never set has no
    [handler] attribute. *)
Definition ValidChunk_extract (self : ValidChunk) (inpath outdir : Path) : M unit :=
  if is_encrypted self then
    emit (LogWarning "Encrypted file is not extracted") ;;
    raise (ExtractError [])
  else
    match handler self with
    | Some h => Handler_extract h inpath outdir
    | None => raise (AttributeError "handler")
    end.

(** [fix_extracted_directory(outdir, self.result)]: the reports it adds
    stay in the result also when it raises. *)
Definition call_fix_extracted_directory (outdir : Path) : M unit :=
  emit (CallFixExtractedDirectory outdir) ;;
  w <- get_world ;;
  let '(o, fix_reports, w') := fix_extracted_directory outdir w in
  set_world w' ;;
  for_each fix_reports result_add_report ;;
  lift o.

Definition _extract_chunk (task : Task) (extract_dir file : Path) (chunk : ValidChunk)
  : M unit :=
  carved_path <- call (CallCarveValidChunk extract_dir chunk)
                      (carve_valid_chunk extract_dir file chunk) ;;
  let (inpath, outdir) := get_extract_paths extract_dir carved_path in
  try_except
    (ValidChunk_extract chunk inpath outdir ;;
     if negb (keep_extracted_chunks config) then
       emit (LogDebug "Removing extracted chunk") ;;
       call (CallUnlink inpath) (unlink inpath)
     else ret tt)
    (fun exc =>
       match exc with
       | ExtractError reports => for_each reports result_add_report
       | _ =>
           emit (LogException "Unknown error happened while extracting chunk") ;;
           result_add_report (UnknownError exc)
       end) ;;
  call_fix_extracted_directory outdir ;;
  outdir_exists <- query (CallExists outdir) (path_exists outdir) ;;
  if outdir_exists then
    result_add_new_task (mkTask (extract_root config) outdir (depth task + 1))
  else ret tt.

Definition _process_chunks (task : Task) (file : Path)
    (outer_chunks : list ValidChunk) (unknown_chunks : list UnknownChunk) : M unit :=
  extract_dir <- call (CallMakeExtractDir (path task))
                      (make_extract_dir (root task) (path task) (extract_root config)) ;;
  carved_unknown_paths <- call (CallCarveUnknownChunks extract_dir unknown_chunks)
                               (carve_unknown_chunks extract_dir file unknown_chunks) ;;
  PerfCounter "Calculate Entropy" (_calculate_entropies task carved_unknown_paths) ;;
  for_each outer_chunks (fun chunk =>
    PerfCounter "Carve Valid Chunks" (_extract_chunk task extract_dir file chunk)).

(** [remove_inner_chunks] as a statement of the task: its value, and the
    debug line it logs before it returns the outer chunks of a list that is
    not empty. *)
Definition call_remove_inner_chunks (chunks : list ValidChunk) : M (list ValidChunk) :=
  if is_empty chunks then ret (remove_inner_chunks chunks)
  else
    emit (LogDebug "Removed inner chunks") ;;
    ret (remove_inner_chunks chunks).

(** [_FileTask.process]. *)
Definition FileTask_process (task : Task) (size : Z) : M unit :=
  emit (LogDebug "Processing file") ;;
  file <- query (CallOpen (path task)) (open_rb (path task)) ;;
  all_chunks <- PerfCounter "Search Chunks"
    (emit (CallSearchChunks (path task)) ;;
     fun st =>
       let (o, r) := search_chunks_by_priority (path task) file size
                       (handlers config) (result st) (world st) in
       (o, mkState (world st) r (trace st))) ;;
  outer_chunks <- call_remove_inner_chunks all_chunks ;;
  unknown_chunks <- lift (calculate_unknown_chunks outer_chunks size) ;;
  if negb (is_empty outer_chunks) || negb (is_empty unknown_chunks) then
    _process_chunks task file outer_chunks unknown_chunks
  else
    PerfCounter "Calculate Entropy" (_calculate_entropies task [path task]).

(** [Processor._process_task]. *)
Definition _process_task (task : Task) : M unit :=
  if depth task >=? max_depth config then
    emit (LogDebug "Reached maximum depth, stop further processing")
  else if negb (valid_path (path task)) then
    emit (LogWarning "Path contains invalid characters, it won't be processed")
  else
    statres <- query (CallLstat (path task)) (lstat (path task)) ;;
    let (mode, size) := statres : Z * Z in
    if S_ISDIR mode then
      emit (LogDebug "Found directory") ;;
      paths <- query (CallIterdir (path task)) (iterdir (path task)) ;;
      for_each paths (fun p =>
        result_add_new_task (mkTask (root task) p (depth task)))
    else if S_ISLNK mode then emit (LogDebug "Ignoring symlink")
    else if size =? 0 then emit (LogDebug "Ignoring empty file")
    else PerfCounter "Process Regular File" (FileTask_process task size).

(** [Processor._process_error]. *)
Definition _process_error (exc : BaseException) : M unit :=
  let error_report := UnknownError exc in
  result_add_report error_report ;;
  emit (LogException "Unknown error happened").

(** [Processor.process_task]: [result = TaskResult(task)] starts the
    task's result, the [try] statement runs the task, [return result]. *)
Definition process_task (task : Task) : M TaskResult :=
  (fun st => (Ok tt, mkState (world st) (TaskResult_init task) (trace st))) ;;
  try_except
    (PerfCounter "Process Task" (_process_task task))
    (fun exc => _process_error exc) ;;
  fun st => (Ok (result st), st).

End Processor.

(** ** models.py: the remaining methods *)

(** [Handler.get_dependencies]: those of the extractor, if there is one. *)
Definition Handler_get_dependencies (cls : Handler) : list string :=
  match EXTRACTOR cls with
  | Some extractor => dependencies extractor
  | None => []
  end.

(** [Handlers.flat]: the list [__init__] builds from the tiers,
    [[h for handlers in by_priority for h in handlers]]. *)
Definition Handlers_flat (self : Handlers) : list Handler :=
  flat_map (fun handlers : list Handler => handlers) self.

(** [Handlers.with_prepended]. *)
Definition with_prepended (self : Handlers) (by_priority : list Handler) : Handlers :=
  if is_empty by_priority then self else by_priority :: self.

(** ** processing.py: the entropy buffer *)

(** [a // b]; [None] stands for the [ZeroDivisionError] a zero divisor
    raises.  Python's floor division and [Z.div] round the same way. *)
Definition floordiv (a b : Z) : option Z :=
  if b =? 0 then None else Some (a / b).

Definition calculate_buffer_size (file_size chunk_count min_limit max_limit : Z)
  : option Z :=
  match floordiv file_size chunk_count with
  | None => None
  | Some buffer_size =>
      let buffer_size := Z.max min_limit buffer_size in
      let buffer_size := Z.min buffer_size max_limit in
      Some buffer_size
  end.

(** The buffer size [calculate_entropy] asks for. *)
Definition entropy_buffer_size (file_size : Z) : option Z :=
  calculate_buffer_size file_size 80 1024 (1024 * 1024).

(** ** Vocabulary of the properties *)

(** The reconciler as the specification words it: sort by size descending,
    then fold over every chunk from an empty [outer] list. *)
Definition remove_inner_chunks_spec (chunks : list ValidChunk) : list ValidChunk :=
  fold_left
    (fun (outer : list ValidChunk) (chunk : ValidChunk) =>
       if existsb (fun o : ValidChunk => contains o chunk) outer
       then outer else outer ++ [chunk])
    (sorted (fun c : ValidChunk => size c) true chunks) [].

Definition by_size : ValidChunk -> Z := fun c => size c.

Definition by_start : ValidChunk -> Z := fun c => start_offset c.

(** No chunk of [chunks] contains [c]. *)
Definition uncontained (chunks : list ValidChunk) (c : ValidChunk) : bool :=
  negb (existsb (fun d : ValidChunk => contains d c) chunks).

(** A valid chunk with the given bounds, no handler set, not encrypted. *)
Definition chunk_at (s e : Z) : ValidChunk := mkValidChunk (mkChunk s e) None false.

(** A chunk that lies within a file of size [S]. *)
Definition within (S : Z) (c : Chunk) : Prop :=
  0 <= start_offset c /\ start_offset c < end_offset c /\ end_offset c <= S.

(** Two half-open ranges with no offset in common. *)
Definition disjoint (a b : Chunk) : Prop :=
  forall o : Z, ~ (contains_offset a o = true /\ contains_offset b o = true).

(** The ranges of [l] cover [[0, S)] exactly: they are pairwise disjoint and
    an offset is in one of them if and only if it is in [[0, S)]. *)
Definition tiles (l : list Chunk) (S : Z) : Prop :=
  ForallOrdPairs disjoint l
  /\ forall o : Z, 0 <= o < S <-> Exists (fun c => contains_offset c o = true) l.

(** The number of ranges of [l] an offset lies in. *)
Fixpoint cover_count (o : Z) (l : list Chunk) : Z :=
  match l with
  | [] => 0
  | c :: l' => (if contains_offset c o then 1 else 0) + cover_count o l'
  end.

(** The order [calculate_unknown_chunks] sees the outer chunks in: by start
    offset, equal starts by size descending. *)
Definition canonical_order (a b : Chunk) : Prop :=
  start_offset a < start_offset b
  \/ (start_offset a = start_offset b /\ size b <= size a).

(** [a] ends where [b] starts, or before. *)
Definition precedes (a b : Chunk) : Prop := end_offset a <= start_offset b.

Definition valid (c : Chunk) : Prop := 0 <= start_offset c < end_offset c.

(** [unknown_between] and the gap computation, on the bounds alone. *)
Fixpoint gaps_between (pairs : list (Chunk * Chunk))
    (unknown_chunks : list UnknownChunk) : Outcome (list UnknownChunk) :=
  match pairs with
  | [] => Ok unknown_chunks
  | (chunk, next_chunk) :: pairs' =>
      if negb (start_offset next_chunk - end_offset chunk =? 0) then
        (unknown_chunk <- UnknownChunk_init (end_offset chunk) (start_offset next_chunk) ;;
         gaps_between pairs' (unknown_chunks ++ [unknown_chunk]))%outcome
      else gaps_between pairs' unknown_chunks
  end.

Definition gaps_of (sorted_by_offset : list Chunk) (file_size : Z)
  : Outcome (list UnknownChunk) :=
  match sorted_by_offset with
  | [] => Ok []
  | first :: _ =>
      (unknown_chunks <-
         (if negb (start_offset first =? 0) then
            (unknown_chunk <- UnknownChunk_init 0 (start_offset first) ;;
             Ok [unknown_chunk])
          else Ok []) ;;
       unknown_chunks <- gaps_between (pairwise sorted_by_offset) unknown_chunks ;;
       let last := List.last sorted_by_offset first in
       if end_offset last <? file_size then
         (unknown_chunk <- UnknownChunk_init (end_offset last) file_size ;;
          Ok (unknown_chunks ++ [unknown_chunk]))
       else Ok unknown_chunks)%outcome
  end.

(** A world with nothing in it: every call succeeds and does nothing, no
    path exists. *)
Definition empty_world : Externals := {|
  World := unit;
  valid_path := fun _ => true;
  lstat := fun _ _ => Ok (33188, 64);
  iterdir := fun _ _ => Ok [];
  open_rb := fun p _ => Ok p;
  search_chunks_by_priority := fun _ _ _ _ r _ => (Ok [], r);
  make_extract_dir := fun _ p _ w => (Ok (p ++ "_extract")%string, w);
  carve_unknown_chunks := fun _ _ _ w => (Ok [], w);
  carve_valid_chunk := fun d _ _ w => (Ok (d ++ "/chunk")%string, w);
  get_extract_paths := fun _ p => (p, (p ++ "_extract")%string);
  fix_extracted_directory := fun _ w => (Ok tt, [], w);
  path_exists := fun _ _ => Ok false;
  unlink := fun _ w => (Ok tt, w);
  mkdir := fun _ w => (Ok tt, w);
  extractor_extract := fun _ _ _ w => (Ok tt, w);
  calculate_entropy := fun _ _ _ => Ok tt;
  perf_counter_reports := fun _ _ => []
|}.

(** The same world, where [lstat] fails. *)
Definition failing_world : Externals := {|
  World := unit;
  valid_path := fun _ => true;
  lstat := fun _ _ => Raise (OSError "No such file or directory");
  iterdir := fun _ _ => Ok [];
  open_rb := fun p _ => Ok p;
  search_chunks_by_priority := fun _ _ _ _ r _ => (Ok [], r);
  make_extract_dir := fun _ p _ w => (Ok (p ++ "_extract")%string, w);
  carve_unknown_chunks := fun _ _ _ w => (Ok [], w);
  carve_valid_chunk := fun d _ _ w => (Ok (d ++ "/chunk")%string, w);
  get_extract_paths := fun _ p => (p, (p ++ "_extract")%string);
  fix_extracted_directory := fun _ w => (Ok tt, [], w);
  path_exists := fun _ _ => Ok false;
  unlink := fun _ w => (Ok tt, w);
  mkdir := fun _ w => (Ok tt, w);
  extractor_extract := fun _ _ _ w => (Ok tt, w);
  calculate_entropy := fun _ _ _ => Ok tt;
  perf_counter_reports := fun _ _ => []
|}.

Definition default_config : ExtractionConfig :=
  mkExtractionConfig "out" 1 false 10 1 false [].

Definition encrypted_chunk : ValidChunk :=
  mkValidChunk (mkChunk 0 16) (Some (mkHandler "zip" (Some (mkExtractor ["7z"%string])))) true.

Definition initial_state (X : Externals) (w : @World X) (t : Task) : @State X :=
  mkState w (TaskResult_init t) [].

(** Two ranges that are disjoint or of which one contains the other. *)
Definition nested_or_disjoint (a b : Chunk) : Prop :=
  disjoint a b \/ contains a b = true \/ contains b a = true.

Definition by_size_descending (a b : ValidChunk) : Prop := size b <= size a.

(** A string without a minus sign. *)
Fixpoint no_minus (s : string) : Prop :=
  match s with
  | EmptyString => True
  | String ch s' => ch <> "-"%char /\ no_minus s'
  end.

(** The tasks a task [t] may enqueue: an entry [iterdir] gave for the path
    of [t], at the depth of [t] and under its root; or, one level deeper and
    under the extraction root, the output directory [get_extract_paths]
    gives for a chunk carved into the extraction directory of [t], found to
    exist. *)
Definition child_of {X : Externals} (config : ExtractionConfig) (t t' : Task)
  : Prop :=
  (root t' = root t /\ depth t' = depth t
   /\ exists (w : World) (entries : list Path),
        iterdir (path t) w = Ok entries /\ In (path t') entries)
  \/ (root t' = extract_root config /\ depth t' = depth t + 1
      /\ exists (w1 w2 w3 : World) (extract_dir file carved_path : Path)
               (chunk : ValidChunk),
           fst (make_extract_dir (root t) (path t) (extract_root config) w1)
           = Ok extract_dir
           /\ fst (carve_valid_chunk extract_dir file chunk w2) = Ok carved_path
           /\ path t' = snd (get_extract_paths extract_dir carved_path)
           /\ path_exists (path t') w3 = Ok true).

(** A statement that keeps a property of the new tasks enqueued so far. *)
Definition keeps {X : Externals} {A : Type} (P : Task -> Prop) (m : M A) : Prop :=
  forall st : State,
    Forall P (new_tasks (result st)) ->
    Forall P (new_tasks (result (snd (m st)))).

(** An event that is a log line. *)
Definition is_log (ev : Event) : bool :=
  match ev with
  | LogDebug _ | LogWarning _ | LogException _ => true
  | _ => false
  end.

(** A small world: one answer for every [lstat], the entries every
    directory has, the chunks the finder reports, whether paths exist, and
    what the extractors do. *)
Definition small_world (statres : Z * Z) (entries : list Path)
    (found : list ValidChunk) (paths_exist : bool) (extraction : Outcome unit)
  : Externals := {|
  World := unit;
  valid_path := fun p => negb (String.eqb p "");
  lstat := fun _ _ => Ok statres;
  iterdir := fun _ _ => Ok entries;
  open_rb := fun p _ => Ok p;
  search_chunks_by_priority := fun _ _ _ _ r _ => (Ok found, r);
  make_extract_dir := fun _ p _ w => (Ok (p ++ "_extract")%string, w);
  carve_unknown_chunks := fun _ _ _ w => (Ok [], w);
  carve_valid_chunk := fun d _ _ w => (Ok (d ++ "/chunk")%string, w);
  get_extract_paths := fun _ p => (p, (p ++ "_extract")%string);
  fix_extracted_directory := fun _ w => (Ok tt, [], w);
  path_exists := fun _ _ => Ok paths_exist;
  unlink := fun _ w => (Ok tt, w);
  mkdir := fun _ w => (Ok tt, w);
  extractor_extract := fun _ _ _ w => (extraction, w);
  calculate_entropy := fun _ _ _ => Ok tt;
  perf_counter_reports := fun _ _ => []
|}.

Definition zip_handler : Handler := mkHandler "zip" (Some (mkExtractor ["7z"%string])).

Definition zip_chunk (s e : Z) : ValidChunk :=
  mkValidChunk (mkChunk s e) (Some zip_handler) false.

(** The reports [_extract_chunk] stores for an exception of the extraction:
    those an [ExtractError] carries, or one [UnknownError]. *)
Definition reports_of_failure (exc : BaseException) : list Report :=
  match exc with
  | ExtractError reports => reports
  | _ => [UnknownError exc]
  end.

Definition directory_world : Externals :=
  small_world (16877, 4096) ["in/a"%string; "in/b"%string] [] false (Ok tt).

Definition symlink_world : Externals := small_world (41471, 7) [] [] false (Ok tt).

Definition quiet_world : Externals := small_world (33188, 64) [] [] false (Ok tt).

Definition zip_world : Externals :=
  small_world (33188, 64) [] [zip_chunk 0 16] true (Ok tt).

Definition failing_zip_world : Externals :=
  small_world (33188, 64) [] [] true
    (Raise (ExtractError [ErrorReport ERROR "7z failed"])).

Definition overlap_world : Externals :=
  small_world (33188, 15) [] [chunk_at 0 10; chunk_at 5 15] false (Ok tt).

(** A world like [zip_world] in which no extraction directory can be made. *)
Definition full_disk_world : Externals := {|
  World := unit;
  valid_path := fun p => negb (String.eqb p "");
  lstat := fun _ _ => Ok (33188, 64);
  iterdir := fun _ _ => Ok [];
  open_rb := fun p _ => Ok p;
  search_chunks_by_priority := fun _ _ _ _ r _ => (Ok [zip_chunk 0 16], r);
  make_extract_dir := fun _ _ _ w => (Raise (OSError "No space left on device"), w);
  carve_unknown_chunks := fun _ _ _ w => (Ok [], w);
  carve_valid_chunk := fun d _ _ w => (Ok (d ++ "/chunk")%string, w);
  get_extract_paths := fun _ p => (p, (p ++ "_extract")%string);
  fix_extracted_directory := fun _ w => (Ok tt, [], w);
  path_exists := fun _ _ => Ok false;
  unlink := fun _ w => (Ok tt, w);
  mkdir := fun _ w => (Ok tt, w);
  extractor_extract := fun _ _ _ w => (Ok tt, w);
  calculate_entropy := fun _ _ _ => Ok tt;
  perf_counter_reports := fun _ _ => []
|}.

(** A world in which the run is interrupted from the keyboard while the
    finder searches a file. *)
Definition interrupted_world : Externals := {|
  World := unit;
  valid_path := fun p => negb (String.eqb p "");
  lstat := fun _ _ => Ok (33188, 64);
  iterdir := fun _ _ => Ok [];
  open_rb := fun p _ => Ok p;
  search_chunks_by_priority := fun _ _ _ _ r _ => (Raise KeyboardInterrupt, r);
  make_extract_dir := fun _ p _ w => (Ok (p ++ "_extract")%string, w);
  carve_unknown_chunks := fun _ _ _ w => (Ok [], w);
  carve_valid_chunk := fun d _ _ w => (Ok (d ++ "/chunk")%string, w);
  get_extract_paths := fun _ p => (p, (p ++ "_extract")%string);
  fix_extracted_directory := fun _ w => (Ok tt, [], w);
  path_exists := fun _ _ => Ok false;
  unlink := fun _ w => (Ok tt, w);
  mkdir := fun _ w => (Ok tt, w);
  extractor_extract := fun _ _ _ w => (Ok tt, w);
  calculate_entropy := fun _ _ _ => Ok tt;
  perf_counter_reports := fun _ _ => []
|}.

(* ===================================================================== *)
(** * Properties *)
(* ===================================================================== *)

(** ** Chunk construction *)

Lemma Chunk_init_ok (s e : Z) :
  0 <= s < e -> Chunk_init s e = Ok (mkChunk s e).
Proof.
  intros H. unfold Chunk_init.
  destruct (Z.ltb_spec s 0); [lia|].
  destruct (Z.ltb_spec e 0); [lia|]. simpl.
  destruct (Z.geb_spec s e); [lia|]. reflexivity.
Qed.

Lemma Chunk_init_raises (s e : Z) :
  ~ (0 <= s < e) -> exists msg, Chunk_init s e = Raise (InvalidInputFormat msg).
Proof.
  intros H. unfold Chunk_init, chunk_error.
  destruct (Z.ltb_spec s 0); simpl; [eauto|].
  destruct (Z.ltb_spec e 0); simpl; [eauto|].
  destruct (Z.geb_spec s e); [eauto|lia].
Qed.

Lemma Chunk_init_inv (s e : Z) (c : Chunk) :
  Chunk_init s e = Ok c -> c = mkChunk s e /\ 0 <= s < e.
Proof.
  intros H.
  destruct (Z_lt_dec s e) as [Hlt|Hge]; [destruct (Z_le_dec 0 s) as [H0|H0]|].
  - rewrite Chunk_init_ok in H by lia. inversion H; subst. split; [reflexivity|lia].
  - destruct (Chunk_init_raises s e) as [m Hm]; [lia|congruence].
  - destruct (Chunk_init_raises s e) as [m Hm]; [lia|congruence].
Qed.

(** C5. Constructing a chunk raises [InvalidInputFormat] if and only if the
    bounds are invalid: construction succeeds exactly when [0 <= s < e], and
    a constructed chunk has the given bounds, a non-negative start and a
    start below its end. *)
Theorem Chunk_init_raises_iff_invalid (s e : Z) :
  ((exists msg, Chunk_init s e = Raise (InvalidInputFormat msg)) <-> ~ (0 <= s < e))
  /\ ((exists c, Chunk_init s e = Ok c) <-> 0 <= s < e)
  /\ (forall c, Chunk_init s e = Ok c ->
        start_offset c = s /\ end_offset c = e
        /\ 0 <= start_offset c /\ start_offset c < end_offset c).
Proof.
  split; [|split].
  - split.
    + intros [msg Hm] Hv. rewrite Chunk_init_ok in Hm by assumption. discriminate.
    + apply Chunk_init_raises.
  - split.
    + intros [c Hc]. apply Chunk_init_inv in Hc. tauto.
    + intros Hv. exists (mkChunk s e). now apply Chunk_init_ok.
  - intros c Hc. apply Chunk_init_inv in Hc. destruct Hc as [-> Hv]. simpl. lia.
Qed.

Lemma Chunk_init_raises_iff_invalid_witness :
  start_offset (mkChunk 3 7) = 3 /\ end_offset (mkChunk 3 7) = 7
  /\ 0 <= start_offset (mkChunk 3 7)
  /\ start_offset (mkChunk 3 7) < end_offset (mkChunk 3 7).
Proof.
  apply (proj2 (proj2 (Chunk_init_raises_iff_invalid 3 7))). reflexivity.
Defined.

(** ** The stable sort *)

Section SortedFacts.
Context {A : Type} (key : A -> Z) (reverse : bool).

Lemma key_before_true (y x : A) : key_before key reverse y x = true <-> key_lt key reverse y x.
Proof.
  unfold key_before, key_lt. destruct reverse; apply Z.ltb_lt.
Qed.

Lemma key_before_false (y x : A) : key_before key reverse y x = false <-> key_le key reverse x y.
Proof.
  unfold key_before, key_le. destruct reverse; rewrite Z.ltb_ge; reflexivity.
Qed.

Lemma insert_sorted_perm (x : A) (l : list A) :
  Permutation (insert_sorted key reverse x l) (x :: l).
Proof.
  induction l as [|y r IH]; simpl; [reflexivity|].
  destruct (key_before key reverse y x).
  - rewrite IH. apply perm_swap.
  - reflexivity.
Qed.

Lemma sorted_perm (l : list A) : Permutation (sorted key reverse l) l.
Proof.
  induction l as [|x l IH]; simpl; [reflexivity|].
  rewrite insert_sorted_perm. now constructor.
Qed.

Lemma key_then_shift (R : A -> A -> Prop) (x y z : A) :
  key_le key reverse x y -> key_then key reverse R y z -> key_le key reverse x z.
Proof.
  unfold key_le, key_then, key_lt. destruct reverse; lia.
Qed.

Lemma insert_sorted_sorted (R : A -> A -> Prop) (x : A) (l : list A) :
  StronglySorted (key_then key reverse R) l -> Forall (R x) l ->
  StronglySorted (key_then key reverse R) (insert_sorted key reverse x l).
Proof.
  induction 1 as [|y r Hs IH Hy]; intros HR; simpl.
  - repeat constructor.
  - inversion HR as [|? ? Rxy HRr]; subst.
    destruct (key_before key reverse y x) eqn:E.
    + constructor; [auto|].
      apply (Permutation_Forall (Permutation_sym (insert_sorted_perm x r))).
      constructor; [|assumption].
      left. now apply key_before_true.
    + apply key_before_false in E.
      constructor; [now constructor|].
      assert (Hxy : key_then key reverse R x y).
      { destruct (Z.eq_dec (key x) (key y)) as [Heq|Hne]; [right; now split|].
        left. unfold key_lt, key_le in *. destruct reverse; lia. }
      constructor; [assumption|].
      rewrite Forall_forall in *. intros z Hz.
      pose proof (key_then_shift R x y z E (Hy z Hz)) as Hle.
      specialize (HRr z Hz).
      destruct (Z.eq_dec (key x) (key z)) as [Heq|Hne]; [right; now split|].
      left. unfold key_lt, key_le in *. destruct reverse; lia.
Qed.

(** Sorting a list that is ordered by [R] orders it by key, and by [R]
    among equal keys: this is stability. *)
Lemma sorted_stable (R : A -> A -> Prop) (l : list A) :
  StronglySorted R l -> StronglySorted (key_then key reverse R) (sorted key reverse l).
Proof.
  induction 1 as [|x l Hs IH Hx]; simpl; [constructor|].
  apply insert_sorted_sorted; [assumption|].
  apply (Permutation_Forall (Permutation_sym (sorted_perm l))). assumption.
Qed.

Lemma sorted_by_key (l : list A) : StronglySorted (key_le key reverse) (sorted key reverse l).
Proof.
  induction l as [|x l IH]; simpl; [constructor|].
  revert IH. generalize (sorted key reverse l). clear l.
  induction 1 as [|y r Hs IH Hy]; simpl.
  - repeat constructor.
  - destruct (key_before key reverse y x) eqn:E.
    + constructor; [assumption|].
      apply (Permutation_Forall (Permutation_sym (insert_sorted_perm x r))).
      constructor; [|assumption].
      apply key_before_true in E. unfold key_lt, key_le in *. destruct reverse; lia.
    + apply key_before_false in E.
      constructor; [now constructor|].
      constructor; [assumption|].
      rewrite Forall_forall in *. intros z Hz. specialize (Hy z Hz).
      unfold key_le in *. destruct reverse; lia.
Qed.

(** Equal keys keep their input order. *)
Lemma sorted_keeps_input_order (k : Z) (l : list A) :
  filter (fun a => key a =? k) (sorted key reverse l) = filter (fun a => key a =? k) l.
Proof.
  induction l as [|x l IH]; simpl; [reflexivity|].
  rewrite <- IH. generalize (sorted_by_key l). generalize (sorted key reverse l).
  clear IH l. induction 1 as [|y r Hs IH Hy]; simpl; [reflexivity|].
  destruct (key_before key reverse y x) eqn:E; simpl; [|reflexivity].
  rewrite IH. apply key_before_true in E.
  destruct (Z.eqb_spec (key y) k), (Z.eqb_spec (key x) k); try reflexivity.
  unfold key_lt in E. destruct reverse; lia.
Qed.

End SortedFacts.

(** ** [contains] *)

Lemma contains_true (a b : Chunk) :
  contains a b = true <->
  start_offset a < start_offset b /\ end_offset b <= end_offset a.
Proof.
  unfold contains. rewrite andb_true_iff, Z.ltb_lt, Z.geb_le. reflexivity.
Qed.

Lemma contains_size (a b : Chunk) : contains a b = true -> size b < size a.
Proof. rewrite contains_true. unfold size. lia. Qed.

Lemma contains_trans (a b c : Chunk) :
  contains a b = true -> contains b c = true -> contains a c = true.
Proof. rewrite !contains_true. lia. Qed.

Lemma contains_same_bounds (a b c : Chunk) :
  start_offset a = start_offset b -> end_offset a = end_offset b ->
  contains c a = contains c b.
Proof. unfold contains. intros -> ->. reflexivity. Qed.

Lemma contains_equal_bounds_false (a b : Chunk) :
  start_offset a = start_offset b -> contains a b = false.
Proof.
  intros H. unfold contains. rewrite H, Z.ltb_irrefl. reflexivity.
Qed.

(** ** [remove_inner_chunks] keeps exactly the chunks no chunk contains *)

Lemma uncontained_true (chunks : list ValidChunk) (c : ValidChunk) :
  uncontained chunks c = true <->
  forall d : ValidChunk, In d chunks -> contains d c = false.
Proof.
  unfold uncontained. rewrite negb_true_iff. split.
  - intros H d Hd. destruct (contains d c) eqn:E; [|reflexivity].
    assert (existsb (fun d : ValidChunk => contains d c) chunks = true)
      by (apply existsb_exists; eauto).
    congruence.
  - intros H. destruct (existsb _ chunks) eqn:E; [|reflexivity].
    apply existsb_exists in E. destruct E as [d [Hd Hc]].
    rewrite (H d Hd) in Hc. discriminate.
Qed.

Lemma uncontained_perm (l1 l2 : list ValidChunk) (c : ValidChunk) :
  Permutation l1 l2 -> uncontained l1 c = uncontained l2 c.
Proof.
  intros HP. apply eq_true_iff_eq. rewrite !uncontained_true.
  split; intros H d Hd; apply H.
  - eapply Permutation_in; [apply Permutation_sym|]; eassumption.
  - eapply Permutation_in; eassumption.
Qed.

Lemma StronglySorted_middle {A : Type} (R : A -> A -> Prop) (pre : list A) (c : A)
    (rest : list A) :
  StronglySorted R (pre ++ c :: rest) -> Forall (R c) rest.
Proof.
  induction pre as [|p pre IH]; simpl; intros H; inversion H; subst; auto.
Qed.

(** The loop invariant: after the prefix [pre] of the size-sorted list [S],
    [outer_chunks] holds the chunks of [pre] that nothing in [S] contains,
    and every chunk of [pre] is accepted or inside an accepted chunk. *)
Lemma remove_inner_loop_filter (S : list ValidChunk) :
  StronglySorted (key_le by_size true) S ->
  forall rest pre outer_chunks,
    S = pre ++ rest ->
    outer_chunks = filter (uncontained S) pre ->
    (forall d : ValidChunk, In d pre ->
       In d outer_chunks \/
       exists o : ValidChunk, In o outer_chunks /\ contains o d = true) ->
    remove_inner_loop outer_chunks rest = filter (uncontained S) S.
Proof.
  intros HS. induction rest as [|c rest IH]; intros pre outer HSeq Hout Hcov.
  - simpl. rewrite app_nil_r in HSeq. now subst.
  - assert (Hsame : negb (existsb (fun o : ValidChunk => contains o c) outer)
                    = uncontained S c).
    { unfold uncontained. f_equal. apply eq_true_iff_eq.
      rewrite !existsb_exists. split; intros [d [Hd Hc]].
      - exists d. split; [|assumption]. subst outer S.
        apply filter_In in Hd. apply in_or_app. left. tauto.
      - pose proof (contains_size _ _ Hc) as Hsz.
        assert (Hpre : In d pre).
        { rewrite HSeq in HS. pose proof (StronglySorted_middle _ _ _ _ HS) as Hr.
          rewrite Forall_forall in Hr.
          assert (Hin : In d (pre ++ c :: rest)) by (rewrite <- HSeq; assumption).
          apply in_app_or in Hin. destruct Hin as [Hin|[Hin|Hin]]; [assumption| |].
          - subst d. lia.
          - specialize (Hr d Hin). unfold key_le, by_size in Hr. simpl in Hr. lia. }
        destruct (Hcov d Hpre) as [Hin|[o [Ho Hod]]].
        + eauto.
        + exists o. split; [assumption|]. eapply contains_trans; eassumption. }
    simpl. rewrite Hsame.
    assert (HSeq' : S = (pre ++ [c]) ++ rest) by (rewrite <- app_assoc; assumption).
    destruct (uncontained S c) eqn:Hu.
    + apply (IH (pre ++ [c])); [assumption| |].
      * rewrite filter_app. simpl. rewrite Hu. now subst outer.
      * intros d Hd. apply in_app_or in Hd. destruct Hd as [Hd|[Hd|[]]].
        -- destruct (Hcov d Hd) as [Hin|[o [Ho Hod]]].
           ++ left. apply in_or_app. now left.
           ++ right. exists o. split; [apply in_or_app; now left|assumption].
        -- subst d. left. apply in_or_app. right. now left.
    + apply (IH (pre ++ [c])); [assumption| |].
      * rewrite filter_app. simpl. rewrite Hu, app_nil_r. assumption.
      * intros d Hd. apply in_app_or in Hd. destruct Hd as [Hd|[Hd|[]]].
        -- apply Hcov; assumption.
        -- subst d. right. apply negb_false_iff in Hsame.
           apply existsb_exists in Hsame. exact Hsame.
Qed.

Lemma remove_inner_chunks_loop (chunks : list ValidChunk) :
  remove_inner_chunks chunks = remove_inner_loop [] (sorted by_size true chunks).
Proof.
  unfold remove_inner_chunks. fold by_size.
  destruct chunks as [|c chunks]; [reflexivity|].
  destruct (sorted by_size true (c :: chunks)); reflexivity.
Qed.

Lemma remove_inner_chunks_filter (chunks : list ValidChunk) :
  remove_inner_chunks chunks
  = filter (uncontained chunks) (sorted by_size true chunks).
Proof.
  rewrite remove_inner_chunks_loop.
  rewrite (remove_inner_loop_filter (sorted by_size true chunks)
             (sorted_by_key _ _ _) (sorted by_size true chunks) [] []);
    [|reflexivity|reflexivity|intros d []].
  apply filter_ext. intros c. apply uncontained_perm. apply sorted_perm.
Qed.

Lemma remove_inner_chunks_In (chunks : list ValidChunk) (c : ValidChunk) :
  In c (remove_inner_chunks chunks) <->
  In c chunks /\ forall d : ValidChunk, In d chunks -> contains d c = false.
Proof.
  rewrite remove_inner_chunks_filter, filter_In, uncontained_true.
  split; intros [H1 H2]; (split; [|assumption]).
  - eapply Permutation_in; [apply sorted_perm|eassumption].
  - eapply Permutation_in; [apply Permutation_sym, sorted_perm|eassumption].
Qed.

Lemma remove_inner_loop_fold (rest outer_chunks : list ValidChunk) :
  remove_inner_loop outer_chunks rest
  = fold_left
      (fun (outer : list ValidChunk) (chunk : ValidChunk) =>
         if existsb (fun o : ValidChunk => contains o chunk) outer
         then outer else outer ++ [chunk])
      rest outer_chunks.
Proof.
  revert outer_chunks. induction rest as [|c rest IH]; intros outer; simpl;
    [reflexivity|].
  destruct (existsb _ outer); simpl; apply IH.
Qed.

(** C2. The result of [remove_inner_chunks] is pairwise non-containing: no
    chunk of the result contains another chunk of the result (in either
    direction); and the function is the specified computation: sort by size
    descending, then append each chunk that no accepted chunk contains. *)
Theorem remove_inner_chunks_non_containing (chunks : list ValidChunk) :
  (forall a b : ValidChunk,
      In a (remove_inner_chunks chunks) -> In b (remove_inner_chunks chunks) ->
      contains a b = false /\ contains b a = false)
  /\ remove_inner_chunks chunks = remove_inner_chunks_spec chunks.
Proof.
  split.
  - intros a b Ha Hb. apply remove_inner_chunks_In in Ha, Hb.
    destruct Ha as [Ha Hna], Hb as [Hb Hnb]. split; auto.
  - rewrite remove_inner_chunks_loop, remove_inner_loop_fold. reflexivity.
Qed.

(** ** Chunks with equal bounds *)

Lemma sorted_two_equal_keys {A : Type} (key : A -> Z) (reverse : bool) (a b : A) :
  key a = key b -> sorted key reverse [a; b] = [a; b].
Proof.
  intros H. simpl. unfold key_before. rewrite H.
  destruct reverse; rewrite Z.ltb_irrefl; reflexivity.
Qed.

(** C9 as stated fails: two chunks with equal bounds inside a bigger chunk
    are both removed. *)
Lemma equal_bounds_both_removed :
  ~ (forall (a b : ValidChunk) (chunks : list ValidChunk),
        start_offset a = start_offset b -> end_offset a = end_offset b ->
        In a chunks -> In b chunks ->
        In a (remove_inner_chunks chunks) /\ In b (remove_inner_chunks chunks)).
Proof.
  intros H.
  destruct (H (chunk_at 10 20) (chunk_at 10 20)
              [chunk_at 0 100; chunk_at 10 20; chunk_at 10 20]) as [Ha _];
    try reflexivity; try (simpl; tauto).
  vm_compute in Ha. destruct Ha as [Ha|[]]. discriminate Ha.
Qed.

(** C9, amended. Two chunks with equal bounds do not contain each other.
    [remove_inner_chunks] on a list with both keeps both or removes both: it
    keeps them when no chunk of the list contains them, it removes them when
    some chunk does; on the list of the two alone it returns both. *)
Theorem equal_bounds_kept_together (a b : ValidChunk) (chunks : list ValidChunk) :
  start_offset a = start_offset b -> end_offset a = end_offset b ->
  In a chunks -> In b chunks ->
  contains a b = false /\ contains b a = false
  /\ ((forall d : ValidChunk, In d chunks -> contains d a = false) ->
        In a (remove_inner_chunks chunks) /\ In b (remove_inner_chunks chunks))
  /\ ((exists d : ValidChunk, In d chunks /\ contains d a = true) ->
        ~ In a (remove_inner_chunks chunks) /\ ~ In b (remove_inner_chunks chunks))
  /\ remove_inner_chunks [a; b] = [a; b].
Proof.
  intros Hs He Ha Hb.
  assert (Hab : contains a b = false) by now apply contains_equal_bounds_false.
  assert (Hba : contains b a = false) by now apply contains_equal_bounds_false.
  split; [assumption|]. split; [assumption|]. split; [|split].
  - intros H. split; apply remove_inner_chunks_In; (split; [assumption|]).
    + assumption.
    + intros d Hd. rewrite <- (contains_same_bounds a b d Hs He). auto.
  - intros [d [Hd Hc]].
    split; intros Hin; apply remove_inner_chunks_In in Hin; destruct Hin as [_ Hn].
    + rewrite (Hn d Hd) in Hc. discriminate.
    + rewrite (contains_same_bounds a b d Hs He), (Hn d Hd) in Hc. discriminate.
  - rewrite remove_inner_chunks_loop.
    rewrite sorted_two_equal_keys by (unfold by_size, size; lia).
    simpl. rewrite Hab. reflexivity.
Qed.

Lemma equal_bounds_kept_together_witness :
  contains (chunk_at 10 20) (chunk_at 10 20) = false
  /\ In (chunk_at 10 20)
        (remove_inner_chunks [chunk_at 30 40; chunk_at 10 20; chunk_at 10 20]).
Proof.
  assert (Hin : In (chunk_at 10 20)
                  [chunk_at 30 40; chunk_at 10 20; chunk_at 10 20])
    by (simpl; tauto).
  destruct (equal_bounds_kept_together (chunk_at 10 20) (chunk_at 10 20)
              [chunk_at 30 40; chunk_at 10 20; chunk_at 10 20]
              eq_refl eq_refl Hin Hin)
    as [H1 [_ [H2 _]]].
  split; [exact H1|].
  apply H2. intros d [<-|[<-|[<-|[]]]]; reflexivity.
Defined.

(** ** The exit code *)

Lemma severity_in_map (s : Severity) (reports : list Report) :
  severity_in s (map severity reports) = true <->
  exists r, In r reports /\ severity r = s.
Proof.
  unfold severity_in. rewrite existsb_exists. split.
  - intros [x [Hx Hs]]. apply in_map_iff in Hx. destruct Hx as [r [<- Hr]].
    exists r. split; [assumption|]. destruct s, (severity r); simpl in Hs; congruence.
  - intros [r [Hr <-]]. exists (severity r). split; [now apply in_map|].
    destruct (severity r); reflexivity.
Qed.

(** C8. [get_exit_code_from_reports] returns 1 if at least one report has
    severity [ERROR] and 0 otherwise; reports of severity [WARNING], with no
    [ERROR] among them, give 0. *)
Theorem get_exit_code_from_reports_error_iff (reports : Reports) :
  ((exists r, In r reports /\ severity r = ERROR) ->
     get_exit_code_from_reports reports = 1)
  /\ (~ (exists r, In r reports /\ severity r = ERROR) ->
        get_exit_code_from_reports reports = 0)
  /\ ((exists r, In r reports /\ severity r = WARNING) ->
      (forall r, In r reports -> severity r <> ERROR) ->
        get_exit_code_from_reports reports = 0).
Proof.
  assert (Hno : ~ (exists r, In r reports /\ severity r = ERROR) ->
                get_exit_code_from_reports reports = 0).
  { intros Hn. unfold get_exit_code_from_reports, errors. simpl.
    destruct (severity_in ERROR (map severity reports)) eqn:E.
    - apply severity_in_map in E. contradiction.
    - destruct (severity_in WARNING _); reflexivity. }
  split; [|split].
  - intros Hex. unfold get_exit_code_from_reports, errors. simpl.
    apply severity_in_map in Hex. rewrite Hex. reflexivity.
  - exact Hno.
  - intros _ Hall. apply Hno. intros [r [Hr Hs]]. exact (Hall r Hr Hs).
Qed.

Lemma get_exit_code_from_reports_error_iff_witness :
  get_exit_code_from_reports [ErrorReport WARNING "w"; UnknownError EOFError] = 1
  /\ get_exit_code_from_reports [ErrorReport WARNING "w"] = 0.
Proof.
  split.
  - apply (proj1 (get_exit_code_from_reports_error_iff _)).
    exists (UnknownError EOFError). simpl. split; [tauto|reflexivity].
  - apply (proj2 (proj2 (get_exit_code_from_reports_error_iff _))).
    + exists (ErrorReport WARNING "w"). simpl. split; [tauto|reflexivity].
    + intros r [<-|[]]. simpl. discriminate.
Defined.

(** ** The Netgear CHK handler *)

Lemma byte_value_bound (b : byte) : 0 <= byte_value b < 256.
Proof.
  unfold byte_value. pose proof (Byte.to_N_bounded b). lia.
Qed.

Lemma decode_fold_bound (bs : list byte) (acc : Z) :
  0 <= acc ->
  0 <= fold_left (fun a b => a * 256 + byte_value b) bs acc
    < (acc + 1) * 256 ^ Z.of_nat (List.length bs).
Proof.
  revert acc. induction bs as [|b bs IH]; intros acc Hacc; simpl List.length.
  - simpl. lia.
  - simpl fold_left. pose proof (byte_value_bound b) as Hb.
    specialize (IH (acc * 256 + byte_value b) ltac:(lia)).
    rewrite Nat2Z.inj_succ, Z.pow_succ_r by lia.
    assert (0 < 256 ^ Z.of_nat (List.length bs)) by (apply Z.pow_pos_nonneg; lia).
    nia.
Qed.

Lemma field_uint32 (endian : Endian) (bs : list byte) (offset : nat) :
  0 <= field endian bs offset < 2 ^ 32.
Proof.
  unfold field, decode_uint.
  assert (H : forall l : list byte, (List.length l <= 4)%nat -> 0 <= decode_be l < 2 ^ 32).
  { intros l Hl. unfold decode_be.
    pose proof (decode_fold_bound l 0 ltac:(lia)) as Hb.
    assert (256 ^ Z.of_nat (List.length l) <= 256 ^ 4)
      by (apply Z.pow_le_mono_r; lia).
    change (256 ^ 4) with (2 ^ 32) in *. lia. }
  destruct endian; apply H.
  - rewrite length_rev. apply firstn_le_length.
  - apply firstn_le_length.
Qed.

Lemma parse_header_uint32 (file file' : File) (endian : Endian) (header : chk_header) :
  parse_header file endian = (Ok header, file') ->
  0 <= header_len header < 2 ^ 32
  /\ 0 <= kernel_len header < 2 ^ 32
  /\ 0 <= rootfs_len header < 2 ^ 32.
Proof.
  unfold parse_header. destruct (File_read file chk_header_size) as [bs f].
  destruct (_ <? _)%nat; [discriminate|].
  intros H. inversion H; subst; simpl.
  auto using field_uint32.
Qed.

Lemma calculate_chunk_parsed (file file' : File) (offset : Z) (header : chk_header) :
  parse_header file BIG = (Ok header, file') ->
  fst (calculate_chunk file offset)
  = (chunk <- ValidChunk_init offset
                (offset + header_len header + kernel_len header + rootfs_len header)
                false ;;
     Ok (Some chunk))%outcome.
Proof.
  intros H. unfold calculate_chunk. rewrite H.
  destruct (chk_header_size <? header_len header).
  - destruct (File_read file' _). reflexivity.
  - reflexivity.
Qed.

(** C10. [NetgearCHKHandler.calculate_chunk] never returns [None].  When the
    big-endian header parse succeeds, the sum of the three lengths is not
    negative; for a start offset that is not negative and a positive sum the
    call returns a [ValidChunk] that starts at the given offset and whose
    size is the sum; when the sum is zero the call raises
    [InvalidInputFormat]. *)
Theorem calculate_chunk_never_none (file : File) (offset : Z) :
  fst (calculate_chunk file offset) <> Ok None
  /\ forall (header : chk_header) (file' : File),
       parse_header file BIG = (Ok header, file') ->
       let total := header_len header + kernel_len header + rootfs_len header in
       0 <= total
       /\ (0 <= offset -> 0 < total ->
           exists chunk : ValidChunk,
             fst (calculate_chunk file offset) = Ok (Some chunk)
             /\ start_offset chunk = offset /\ size chunk = total)
       /\ (total = 0 ->
           exists msg, fst (calculate_chunk file offset) = Raise (InvalidInputFormat msg)).
Proof.
  split.
  - destruct (parse_header file BIG) as [[header|e] f] eqn:Hp.
    + rewrite (calculate_chunk_parsed _ _ _ _ Hp). unfold ValidChunk_init.
      destruct (Chunk_init _ _); simpl; discriminate.
    + unfold calculate_chunk. rewrite Hp. simpl. discriminate.
  - intros header file' Hp total.
    pose proof (parse_header_uint32 _ _ _ _ Hp) as [Hh [Hk Hr]].
    rewrite (calculate_chunk_parsed _ _ _ _ Hp).
    split; [subst total; lia|]. split.
    + intros Hoff Htot. unfold ValidChunk_init.
      rewrite Chunk_init_ok by (subst total; lia). simpl.
      eexists. split; [reflexivity|]. unfold size. simpl. subst total. lia.
    + intros Htot. unfold ValidChunk_init.
      destruct (Chunk_init_raises offset
                  (offset + header_len header + kernel_len header + rootfs_len header))
        as [msg Hm]; [subst total; lia|].
      rewrite Hm. simpl. eauto.
Qed.

Lemma calculate_chunk_never_none_witness :
  exists chunk : ValidChunk,
    fst (calculate_chunk
           (mkFile (repeat x00 7 ++ [x28] ++ repeat x00 19 ++ [x10] ++ repeat x00 12) 0) 5)
    = Ok (Some chunk)
    /\ start_offset chunk = 5 /\ size chunk = 56.
Proof.
  pose (file := mkFile (repeat x00 7 ++ [x28] ++ repeat x00 19 ++ [x10] ++ repeat x00 12) 0).
  assert (Hp : parse_header file BIG
               = (Ok (mk_chk_header 0 40 (repeat x00 8) 0 0 16 0 0 0),
                  mkFile (content file) 40)) by reflexivity.
  destruct (calculate_chunk_never_none file 5) as [_ H].
  destruct (H _ _ Hp) as [_ [Hc _]].
  apply Hc; simpl; lia.
Defined.

(** ** Tasks *)

Lemma fold_add_report_reports (l : list Report) (r : TaskResult) :
  reports (fold_left add_report l r) = reports r ++ l.
Proof.
  revert r. induction l as [|x l IH]; intros r; simpl.
  - now rewrite app_nil_r.
  - rewrite IH. simpl. now rewrite <- app_assoc.
Qed.

Lemma fold_add_report_new_tasks (l : list Report) (r : TaskResult) :
  new_tasks (fold_left add_report l r) = new_tasks r.
Proof.
  revert r. induction l as [|x l IH]; intros r; simpl; [reflexivity|].
  now rewrite IH.
Qed.

Section ProcessorFacts.
Context {X : Externals} (config : ExtractionConfig).

Lemma for_each_add_report (l : list Report) (st : State) :
  for_each l result_add_report st
  = (Ok tt, mkState (world st) (fold_left add_report l (result st)) (trace st)).
Proof.
  revert st. induction l as [|x l IH]; intros st; simpl.
  - destruct st; reflexivity.
  - unfold bind. simpl. rewrite IH. reflexivity.
Qed.

(** C3, amended. [process_task] returns the task's result when the task's
    processing returns, and also when it raises an exception of the class
    [Exception]: that exception is caught at the task boundary and exactly
    one [UnknownError] report, built from it, is appended to the reports the
    result held when it was raised.  An exception outside the class
    [Exception] is not caught: [process_task] raises it. *)
Theorem process_task_catches_exceptions (task : Task) (st : State) :
  match PerfCounter "Process Task" (_process_task config task)
          (mkState (world st) (TaskResult_init task) (trace st)) with
  | (Ok _, st1) => process_task config task st = (Ok (result st1), st1)
  | (Raise exc, st1) =>
      if is_Exception exc then
        exists st' : State,
          process_task config task st = (Ok (result st'), st')
          /\ reports (result st') = reports (result st1) ++ [UnknownError exc]
          /\ new_tasks (result st') = new_tasks (result st1)
      else process_task config task st = (Raise exc, st1)
  end.
Proof.
  unfold process_task, bind, try_except. simpl.
  destruct (PerfCounter "Process Task" (_process_task config task) _)
    as [[u|exc] st1]; simpl.
  - reflexivity.
  - destruct (is_Exception exc); simpl; [|reflexivity].
    exists (mkState (world st1) (add_report (result st1) (UnknownError exc))
              (trace st1 ++ [LogException "Unknown error happened"])).
    repeat split.
Qed.

(** C7. A task whose depth has reached [max_depth] stops at once:
    [process_task] returns a result with no new task; the only thing the
    task does is the debug log line, so no chunk search, no carving and no
    extraction; the world is as it was. *)
Theorem process_task_max_depth (t : Task) (st : State) :
  max_depth config <= depth t ->
  exists (r : TaskResult) (st' : State),
    process_task config t st = (Ok r, st')
    /\ new_tasks r = []
    /\ reports r = perf_counter_reports "Process Task" (world st)
    /\ world st' = world st
    /\ trace st'
       = trace st ++ [LogDebug "Reached maximum depth, stop further processing"].
Proof.
  intros Hd. unfold process_task, bind, try_except, PerfCounter, _process_task.
  simpl. destruct (Z.geb_spec (depth t) (max_depth config)) as [_|Hlt]; [|lia].
  simpl. eexists. eexists. split; [reflexivity|]. simpl.
  rewrite fold_add_report_reports, fold_add_report_new_tasks. simpl.
  repeat split.
Qed.

(** C4, amended. Extracting an encrypted chunk, once it is carved and with
    the fix-up and the existence check returning: a warning is logged and
    [ValidChunk.extract] adds no report to the task's result (the reports
    added are those of [fix_extracted_directory]); the handler's extractor
    is not invoked, no output directory is created and the carved file is
    not removed; a child task is enqueued only if the output directory
    exists all the same. *)
Theorem extract_encrypted_chunk (t : Task) (extract_dir file : Path)
    (chunk : ValidChunk) (st : State)
    (carved_path inpath outdir : Path) (w1 w2 : World) (fix_reports : list Report)
    (outdir_exists : bool) :
  is_encrypted chunk = true ->
  carve_valid_chunk extract_dir file chunk (world st) = (Ok carved_path, w1) ->
  get_extract_paths extract_dir carved_path = (inpath, outdir) ->
  fix_extracted_directory outdir w1 = (Ok tt, fix_reports, w2) ->
  path_exists outdir w2 = Ok outdir_exists ->
  exists st' : State,
    _extract_chunk config t extract_dir file chunk st = (Ok tt, st')
    /\ trace st'
       = trace st ++ [CallCarveValidChunk extract_dir chunk;
                      LogWarning "Encrypted file is not extracted";
                      CallFixExtractedDirectory outdir;
                      CallExists outdir]
    /\ reports (result st') = reports (result st) ++ fix_reports
    /\ new_tasks (result st')
       = (if outdir_exists
          then new_tasks (result st)
               ++ [mkTask (extract_root config) outdir (depth t + 1)]
          else new_tasks (result st))
    /\ world st' = w2.
Proof.
  intros Henc Hcarve Hpaths Hfix Hexists.
  unfold _extract_chunk, call_fix_extracted_directory, call, query, bind, emit,
    get_world, set_world, lift.
  simpl. rewrite Hcarve. simpl. rewrite Hpaths.
  unfold try_except, ValidChunk_extract, bind, emit, raise. rewrite Henc. simpl.
  rewrite Hfix. simpl. rewrite for_each_add_report. simpl. rewrite Hexists.
  destruct outdir_exists; eexists; (split; [reflexivity|]); simpl;
    rewrite fold_add_report_reports, fold_add_report_new_tasks;
    rewrite <- !app_assoc; simpl; repeat split.
Qed.

End ProcessorFacts.

(** C3 as stated fails: a [KeyboardInterrupt] raised while the finder
    searches the file is not of the class [Exception], so the [except]
    clause of [process_task] does not catch it: [process_task] raises it,
    returns no result, and no [UnknownError] report is made of it. *)
Lemma process_task_raises_interrupt :
  fst (process_task (X := interrupted_world) default_config
         (mkTask "in" "in/fw.bin" 0)
         (initial_state interrupted_world tt (mkTask "in" "in/fw.bin" 0)))
  = Raise KeyboardInterrupt
  /\ reports (result (snd
        (process_task (X := interrupted_world) default_config
           (mkTask "in" "in/fw.bin" 0)
           (initial_state interrupted_world tt (mkTask "in" "in/fw.bin" 0)))))
     = []
  /\ ~ (forall (X : Externals) (config : ExtractionConfig) (task : Task)
           (st : @State X),
         exists (r : TaskResult) (st' : @State X),
           process_task config task st = (Ok r, st')).
Proof.
  split; [reflexivity|]. split; [reflexivity|].
  intros H.
  destruct (H interrupted_world default_config (mkTask "in" "in/fw.bin" 0)
              (initial_state interrupted_world tt (mkTask "in" "in/fw.bin" 0)))
    as [r [st' E]].
  vm_compute in E. discriminate E.
Qed.

Lemma process_task_max_depth_witness :
  exists (r : TaskResult) (st' : @State empty_world),
    process_task default_config (mkTask "in" "in/fw.bin" 10)
      (initial_state empty_world tt (mkTask "in" "in/fw.bin" 10)) = (Ok r, st')
    /\ new_tasks r = [].
Proof.
  destruct (process_task_max_depth (X := empty_world) default_config
              (mkTask "in" "in/fw.bin" 10)
              (initial_state empty_world tt (mkTask "in" "in/fw.bin" 10)))
    as [r [st' [H1 [H2 _]]]].
  - simpl. lia.
  - exists r, st'. split; assumption.
Defined.

(** C4 as stated fails: extracting an encrypted chunk leaves the reports of
    the task's result as they were; the warning is a log line. *)
Lemma encrypted_chunk_no_warning_report :
  is_encrypted encrypted_chunk = true
  /\ ~ (exists r : Report,
          In r (reports (result (snd
            (_extract_chunk (X := empty_world) default_config
               (mkTask "in" "in/fw.bin" 0) "out/fw.bin_extract" "in/fw.bin"
               encrypted_chunk
               (initial_state empty_world tt (mkTask "in" "in/fw.bin" 0))))))
          /\ severity r = WARNING).
Proof.
  split; [reflexivity|].
  intros [r [Hr _]]. vm_compute in Hr. exact Hr.
Qed.

Lemma extract_encrypted_chunk_witness :
  exists st' : @State empty_world,
    _extract_chunk default_config (mkTask "in" "in/fw.bin" 0)
      "out/fw.bin_extract" "in/fw.bin" encrypted_chunk
      (initial_state empty_world tt (mkTask "in" "in/fw.bin" 0)) = (Ok tt, st')
    /\ reports (result st') = []
    /\ new_tasks (result st') = [].
Proof.
  destruct (extract_encrypted_chunk (X := empty_world) default_config
              (mkTask "in" "in/fw.bin" 0) "out/fw.bin_extract" "in/fw.bin"
              encrypted_chunk
              (initial_state empty_world tt (mkTask "in" "in/fw.bin" 0))
              "out/fw.bin_extract/chunk" "out/fw.bin_extract/chunk"
              "out/fw.bin_extract/chunk_extract" tt tt [] false
              eq_refl eq_refl eq_refl eq_refl eq_refl)
    as [st' [H1 [_ [H2 [H3 _]]]]].
  exists st'. split; [exact H1|]. split; [exact H2|exact H3].
Defined.

(** ** The gaps depend on the bounds of the sorted chunks only *)

Lemma obind_ext {A B : Type} (m : Outcome A) (f g : A -> Outcome B) :
  (forall a, f a = g a) -> obind m f = obind m g.
Proof. intros H. destruct m; simpl; auto. Qed.

Lemma unknown_between_gaps (l : list ValidChunk) (acc : list UnknownChunk) :
  unknown_between (pairwise l) acc = gaps_between (pairwise (map valid_base l)) acc.
Proof.
  revert acc. induction l as [|a l IH]; intros acc; [reflexivity|].
  destruct l as [|b r]; [reflexivity|].
  change (pairwise (a :: b :: r)) with ((a, b) :: pairwise (b :: r)).
  change (pairwise (map valid_base (a :: b :: r)))
    with ((valid_base a, valid_base b) :: pairwise (map valid_base (b :: r))).
  simpl unknown_between. simpl gaps_between.
  destruct (negb _).
  - destruct (UnknownChunk_init _ _); simpl; [apply IH|reflexivity].
  - apply IH.
Qed.

Lemma last_map_base (l : list ValidChunk) (d : ValidChunk) :
  valid_base (List.last l d) = List.last (map valid_base l) (valid_base d).
Proof.
  induction l as [|a l IH]; [reflexivity|].
  destruct l as [|b r]; [reflexivity|]. exact IH.
Qed.

Lemma calculate_unknown_chunks_gaps (chunks : list ValidChunk) (file_size : Z) :
  calculate_unknown_chunks chunks file_size
  = if is_empty chunks || (file_size =? 0) then Ok []
    else gaps_of (map valid_base (sorted by_start false chunks)) file_size.
Proof.
  unfold calculate_unknown_chunks. fold by_start.
  destruct (is_empty chunks || (file_size =? 0)); [reflexivity|].
  cbv zeta.
  destruct (sorted by_start false chunks) as [|first rest] eqn:E; [reflexivity|].
  unfold gaps_of. cbv zeta.
  change (map valid_base (first :: rest)) with (valid_base first :: map valid_base rest).
  cbv beta match.
  change (valid_base first :: map valid_base rest) with (map valid_base (first :: rest)).
  rewrite <- last_map_base.
  apply obind_ext. intros u0. rewrite unknown_between_gaps. reflexivity.
Qed.

(** ** A list sorted by an antisymmetric order is determined by its
    elements *)

Lemma Permutation_filter {A : Type} (f : A -> bool) (l1 l2 : list A) :
  Permutation l1 l2 -> Permutation (filter f l1) (filter f l2).
Proof.
  induction 1 as [|x l1 l2 HP IH|x y l|l1 l2 l3 H1 IH1 H2 IH2]; simpl.
  - constructor.
  - destruct (f x); [now constructor|assumption].
  - destruct (f x), (f y); try reflexivity. apply perm_swap.
  - now transitivity (filter f l2).
Qed.

Lemma StronglySorted_filter {A : Type} (R : A -> A -> Prop) (f : A -> bool)
    (l : list A) :
  StronglySorted R l -> StronglySorted R (filter f l).
Proof.
  induction 1 as [|x l Hs IH Hx]; simpl; [constructor|].
  destruct (f x); [|assumption].
  constructor; [assumption|].
  rewrite Forall_forall in *. intros y Hy. apply filter_In in Hy. apply Hx, Hy.
Qed.

Lemma StronglySorted_map {A B : Type} (R : A -> A -> Prop) (Q : B -> B -> Prop)
    (f : A -> B) (l : list A) :
  (forall a b, R a b -> Q (f a) (f b)) ->
  StronglySorted R l -> StronglySorted Q (map f l).
Proof.
  intros HRQ. induction 1 as [|x l Hs IH Hx]; simpl; constructor; [assumption|].
  rewrite Forall_forall in *. intros y Hy. apply in_map_iff in Hy.
  destruct Hy as [a [<- Ha]]. auto.
Qed.

Lemma sorted_unique {A : Type} (R : A -> A -> Prop) :
  (forall a b, R a b -> R b a -> a = b) ->
  forall l1 l2 : list A,
    StronglySorted R l1 -> StronglySorted R l2 -> Permutation l1 l2 -> l1 = l2.
Proof.
  intros Hanti. induction l1 as [|x l1 IH]; intros l2 H1 H2 HP.
  - apply Permutation_nil in HP. now subst.
  - destruct l2 as [|y l2]; [apply Permutation_sym, Permutation_nil in HP; discriminate|].
    inversion H1 as [|? ? Hs1 Hx]; subst. inversion H2 as [|? ? Hs2 Hy]; subst.
    rewrite Forall_forall in Hx, Hy.
    assert (Hxy : x = y).
    { assert (Hxin : In x (y :: l2)) by (eapply Permutation_in; [exact HP|now left]).
      assert (Hyin : In y (x :: l1))
        by (eapply Permutation_in; [apply Permutation_sym; exact HP|now left]).
      destruct Hxin as [->|Hxin]; [reflexivity|].
      destruct Hyin as [->|Hyin]; [reflexivity|].
      apply Hanti; auto. }
    subst y. f_equal. apply IH; try assumption.
    eapply Permutation_cons_inv; eassumption.
Qed.

Lemma canonical_order_antisym (a b : Chunk) :
  canonical_order a b -> canonical_order b a -> a = b.
Proof.
  destruct a as [sa ea], b as [sb eb]. unfold canonical_order, size. simpl.
  intros H1 H2. assert (sa = sb /\ ea = eb) as [-> ->] by lia. reflexivity.
Qed.

Lemma outer_chunks_canonical (chunks : list ValidChunk) :
  StronglySorted canonical_order
    (map valid_base (sorted by_start false (remove_inner_chunks chunks))).
Proof.
  apply (StronglySorted_map (key_then by_start false (key_le by_size true))).
  - intros a b. unfold key_then, key_lt, key_le, by_start, by_size, canonical_order.
    tauto.
  - apply sorted_stable. rewrite remove_inner_chunks_filter.
    apply StronglySorted_filter, sorted_by_key.
Qed.

Lemma remove_inner_chunks_kept (chunks : list ValidChunk) :
  Permutation (remove_inner_chunks chunks) (filter (uncontained chunks) chunks).
Proof.
  rewrite remove_inner_chunks_filter. apply Permutation_filter, sorted_perm.
Qed.

Lemma remove_inner_chunks_perm (chunks chunks' : list ValidChunk) :
  Permutation chunks chunks' ->
  Permutation (remove_inner_chunks chunks) (remove_inner_chunks chunks').
Proof.
  intros HP. rewrite !remove_inner_chunks_kept.
  rewrite (filter_ext (uncontained chunks) (uncontained chunks')
             (fun c => uncontained_perm _ _ c HP)).
  now apply Permutation_filter.
Qed.

Lemma is_empty_perm {A : Type} (l1 l2 : list A) :
  Permutation l1 l2 -> is_empty l1 = is_empty l2.
Proof.
  intros HP. destruct l1, l2; try reflexivity.
  - apply Permutation_nil in HP. discriminate.
  - apply Permutation_sym, Permutation_nil in HP. discriminate.
Qed.

(** C6. The unknown chunks computed from the outer chunks do not depend on
    the order of the input chunks: for a permutation [chunks'] of [chunks]
    the call returns the same sequence of unknown chunks (or raises the same
    exception). *)
Theorem unknown_chunks_order_invariant (chunks chunks' : list ValidChunk) (S : Z) :
  Permutation chunks chunks' ->
  calculate_unknown_chunks (remove_inner_chunks chunks') S
  = calculate_unknown_chunks (remove_inner_chunks chunks) S.
Proof.
  intros HP. pose proof (remove_inner_chunks_perm _ _ HP) as HPo.
  rewrite !calculate_unknown_chunks_gaps.
  rewrite (is_empty_perm _ _ HPo).
  destruct (_ || _); [reflexivity|]. f_equal.
  apply (sorted_unique canonical_order canonical_order_antisym);
    try apply outer_chunks_canonical.
  apply Permutation_map.
  rewrite !sorted_perm. now apply Permutation_sym.
Qed.

Lemma unknown_chunks_order_invariant_witness :
  calculate_unknown_chunks
    (remove_inner_chunks [chunk_at 30 40; chunk_at 12 18; chunk_at 10 20]) 50
  = calculate_unknown_chunks
    (remove_inner_chunks [chunk_at 10 20; chunk_at 12 18; chunk_at 30 40]) 50.
Proof.
  apply unknown_chunks_order_invariant.
  apply (Permutation_rev [chunk_at 10 20; chunk_at 12 18; chunk_at 30 40]).
Defined.

(** ** Counting the ranges an offset lies in *)

Ltac offset_cases :=
  unfold contains_offset; cbn [start_offset end_offset];
  repeat match goal with
    | |- context [?a <=? ?b] => destruct (Z.leb_spec a b)
    | |- context [?a <? ?b] => destruct (Z.ltb_spec a b)
    end;
  cbn [andb]; try lia.

Lemma contains_offset_true (c : Chunk) (o : Z) :
  contains_offset c o = true <-> start_offset c <= o < end_offset c.
Proof.
  unfold contains_offset. rewrite andb_true_iff, Z.leb_le, Z.ltb_lt. reflexivity.
Qed.

Lemma cover_count_app (o : Z) (l1 l2 : list Chunk) :
  cover_count o (l1 ++ l2) = cover_count o l1 + cover_count o l2.
Proof.
  induction l1 as [|c l1 IH]; simpl; [reflexivity|]. rewrite IH. lia.
Qed.

Lemma cover_count_perm (o : Z) (l1 l2 : list Chunk) :
  Permutation l1 l2 -> cover_count o l1 = cover_count o l2.
Proof.
  induction 1; simpl; lia.
Qed.

Lemma cover_count_nonneg (o : Z) (l : list Chunk) : 0 <= cover_count o l.
Proof.
  induction l as [|c l IH]; simpl; [lia|].
  destruct (contains_offset c o); lia.
Qed.

Lemma cover_count_In (o : Z) (l : list Chunk) (c : Chunk) :
  In c l -> contains_offset c o = true -> 1 <= cover_count o l.
Proof.
  induction l as [|x l IH]; simpl; [tauto|].
  intros [->|Hin] Hc.
  - rewrite Hc. pose proof (cover_count_nonneg o l). lia.
  - specialize (IH Hin Hc). destruct (contains_offset x o); lia.
Qed.

Lemma cover_count_Exists (o : Z) (l : list Chunk) :
  1 <= cover_count o l <-> Exists (fun c => contains_offset c o = true) l.
Proof.
  split.
  - induction l as [|x l IH]; simpl; [lia|].
    destruct (contains_offset x o) eqn:E; intros H.
    + now left.
    + right. apply IH. lia.
  - intros H. apply Exists_exists in H. destruct H as [c [Hin Hc]].
    eapply cover_count_In; eassumption.
Qed.

Lemma disjoint_cover_count (l : list Chunk) :
  ForallOrdPairs disjoint l -> forall o, cover_count o l <= 1.
Proof.
  induction 1 as [|a l Ha Hl IH]; intros o; simpl; [lia|].
  specialize (IH o). destruct (contains_offset a o) eqn:E; [|lia].
  enough (cover_count o l < 1) by lia.
  destruct (Z_lt_dec (cover_count o l) 1) as [|Hge]; [assumption|exfalso].
  assert (Hex : Exists (fun c => contains_offset c o = true) l)
    by (apply cover_count_Exists; lia).
  apply Exists_exists in Hex. destruct Hex as [b [Hb Hbo]].
  rewrite Forall_forall in Ha. exact (Ha b Hb o (conj E Hbo)).
Qed.

Lemma cover_count_disjoint (l : list Chunk) :
  (forall o, cover_count o l <= 1) -> ForallOrdPairs disjoint l.
Proof.
  induction l as [|a l IH]; intros H; constructor.
  - rewrite Forall_forall. intros b Hb o [Ha Hbo].
    specialize (H o). simpl in H. rewrite Ha in H.
    pose proof (cover_count_In o l b Hb Hbo). lia.
  - apply IH. intros o. specialize (H o). simpl in H.
    destruct (contains_offset a o); lia.
Qed.

Lemma tiles_of_cover_count (l : list Chunk) (S : Z) :
  (forall o, cover_count o l = if (0 <=? o) && (o <? S) then 1 else 0) ->
  tiles l S.
Proof.
  intros H. split.
  - apply cover_count_disjoint. intros o. rewrite H.
    destruct ((0 <=? o) && (o <? S)); lia.
  - intros o. rewrite <- cover_count_Exists, H.
    destruct (Z.leb_spec 0 o), (Z.ltb_spec o S); simpl; lia.
Qed.

(** ** Sorted, pairwise disjoint chunks form a chain *)

Lemma sorted_disjoint_chain (l : list Chunk) :
  StronglySorted (fun a b => start_offset a <= start_offset b) l ->
  Forall valid l ->
  (forall o, cover_count o l <= 1) ->
  StronglySorted precedes l.
Proof.
  induction 1 as [|a l Hs IH Ha]; intros Hv Hc; constructor.
  - apply IH.
    + now inversion Hv.
    + intros o. specialize (Hc o). simpl in Hc.
      destruct (contains_offset a o); lia.
  - inversion Hv as [|? ? Hva Hvl]; subst.
    rewrite Forall_forall in *. intros b Hb.
    specialize (Ha b Hb). pose proof (Hvl b Hb) as Hvb.
    unfold precedes, valid in *.
    destruct (Z_le_dec (end_offset a) (start_offset b)) as [|Hgt]; [assumption|exfalso].
    specialize (Hc (start_offset b)). simpl in Hc.
    assert (Hao : contains_offset a (start_offset b) = true)
      by (apply contains_offset_true; lia).
    assert (Hbo : contains_offset b (start_offset b) = true)
      by (apply contains_offset_true; lia).
    rewrite Hao in Hc. pose proof (cover_count_In _ l b Hb Hbo). lia.
Qed.

(** ** The gaps of a chain *)

Lemma gaps_between_acc (pairs : list (Chunk * Chunk)) (acc : list UnknownChunk) :
  gaps_between pairs acc
  = (r <- gaps_between pairs [] ;; Ok (acc ++ r))%outcome.
Proof.
  revert acc. induction pairs as [|[c n] pairs IH]; intros acc; simpl.
  - now rewrite app_nil_r.
  - destruct (negb _); [|apply IH].
    destruct (UnknownChunk_init _ _) as [u|e]; simpl; [|reflexivity].
    rewrite (IH (acc ++ [u])), (IH [u]).
    destruct (gaps_between pairs []); simpl; [|reflexivity].
    now rewrite <- app_assoc.
Qed.

Lemma UnknownChunk_init_ok (s e : Z) :
  0 <= s < e -> UnknownChunk_init s e = Ok (mkUnknownChunk (mkChunk s e)).
Proof.
  intros H. unfold UnknownChunk_init. now rewrite Chunk_init_ok.
Qed.

Lemma last_cons_default {A : Type} (b : A) (r : list A) (d : A) :
  List.last (b :: r) d = List.last r b.
Proof.
  revert b d. induction r as [|c r IH]; intros b d; [reflexivity|].
  change (List.last (b :: c :: r) d) with (List.last (c :: r) d).
  rewrite (IH c d), (IH c b). reflexivity.
Qed.

Lemma gaps_between_chain (l : list Chunk) (a : Chunk) :
  StronglySorted precedes (a :: l) -> Forall valid (a :: l) ->
  exists U : list UnknownChunk,
    gaps_between (pairwise (a :: l)) [] = Ok U
    /\ start_offset a < end_offset (List.last l a)
    /\ forall o,
         cover_count o (a :: l) + cover_count o (map unknown_base U)
         = if (start_offset a <=? o) && (o <? end_offset (List.last l a))
           then 1 else 0.
Proof.
  revert a. induction l as [|b r IH]; intros a Hs Hv.
  - exists []. inversion Hv as [|? ? Hva _]; subst. unfold valid in Hva.
    simpl. split; [reflexivity|]. split; [lia|].
    intros o. rewrite !Z.add_0_r. offset_cases.
  - inversion Hs as [|? ? Hs' Hab]; subst. inversion Hv as [|? ? Hva Hv']; subst.
    inversion Hab as [|? ? Hpre _]; subst.
    inversion Hv' as [|? ? Hvb _]; subst.
    destruct (IH b Hs' Hv') as [U' [HU' [Hlt Hcount]]].
    unfold precedes, valid in *.
    change (pairwise (a :: b :: r)) with ((a, b) :: pairwise (b :: r)).
    rewrite last_cons_default.
    cbn [gaps_between].
    destruct (Z.eqb_spec (start_offset b - end_offset a) 0) as [Heq|Hne]; cbn [negb].
    + exists U'. split; [assumption|]. split; [lia|].
      intros o. specialize (Hcount o).
      change (cover_count o (a :: b :: r))
        with ((if contains_offset a o then 1 else 0) + cover_count o (b :: r)).
      revert Hcount. generalize (cover_count o (b :: r)).
      generalize (cover_count o (map unknown_base U')). intros n1 n2.
      offset_cases.
    + rewrite UnknownChunk_init_ok by lia. cbn [obind].
      rewrite gaps_between_acc, HU'. cbn [obind app].
      eexists. split; [reflexivity|]. split; [lia|].
      intros o. specialize (Hcount o).
      change (cover_count o (a :: b :: r))
        with ((if contains_offset a o then 1 else 0) + cover_count o (b :: r)).
      change (cover_count o (map unknown_base
                (mkUnknownChunk (mkChunk (end_offset a) (start_offset b)) :: U')))
        with ((if contains_offset (mkChunk (end_offset a) (start_offset b)) o
               then 1 else 0) + cover_count o (map unknown_base U')).
      revert Hcount. generalize (cover_count o (b :: r)).
      generalize (cover_count o (map unknown_base U')). intros n1 n2.
      offset_cases.
Qed.

Lemma last_In {A : Type} (l : list A) (a : A) : In (List.last l a) (a :: l).
Proof.
  revert a. induction l as [|b r IH]; intros a; [now left|].
  rewrite last_cons_default. right. apply IH.
Qed.

Lemma within_valid (S : Z) (c : Chunk) : within S c -> valid c.
Proof. unfold within, valid. lia. Qed.

Lemma gaps_of_chain (l : list Chunk) (S : Z) :
  l <> [] -> StronglySorted precedes l -> Forall (within S) l ->
  exists U : list UnknownChunk,
    gaps_of l S = Ok U
    /\ forall o,
         cover_count o l + cover_count o (map unknown_base U)
         = if (0 <=? o) && (o <? S) then 1 else 0.
Proof.
  destruct l as [|a l]; [congruence|]. intros _ Hs Hw.
  assert (Hv : Forall valid (a :: l))
    by (eapply Forall_impl; [apply within_valid|exact Hw]).
  destruct (gaps_between_chain l a Hs Hv) as [U1 [HU1 [Hlt Hcount]]].
  assert (Hwa : within S a) by now inversion Hw.
  assert (Hwl : within S (List.last l a)).
  { rewrite Forall_forall in Hw. apply Hw, last_In. }
  unfold within in Hwa, Hwl.
  unfold gaps_of. rewrite last_cons_default.
  destruct (Z.eqb_spec (start_offset a) 0) as [H0|H0]; cbn [negb];
    [|rewrite UnknownChunk_init_ok by lia]; cbn [obind];
    rewrite gaps_between_acc, HU1; cbn [obind];
    (destruct (Z.ltb_spec (end_offset (List.last l a)) S) as [Hl|Hl];
     [rewrite UnknownChunk_init_ok by lia|]; cbn [obind];
     eexists; (split; [reflexivity|]);
     intros o; specialize (Hcount o);
     rewrite ?map_app, ?cover_count_app;
     cbn [map cover_count unknown_base app] in Hcount |- *;
     revert Hcount; generalize (cover_count o (map unknown_base U1));
     generalize (cover_count o l); intros n1 n2;
     offset_cases).
Qed.

Lemma remove_inner_loop_nonempty (rest outer_chunks : list ValidChunk) :
  outer_chunks <> [] -> remove_inner_loop outer_chunks rest <> [].
Proof.
  revert outer_chunks. induction rest as [|c rest IH]; intros outer H; simpl;
    [assumption|].
  destruct (negb _); apply IH; [|assumption].
  destruct outer; discriminate.
Qed.

Lemma remove_inner_chunks_nonempty (chunks : list ValidChunk) :
  chunks <> [] -> remove_inner_chunks chunks <> [].
Proof.
  intros H. unfold remove_inner_chunks.
  destruct chunks as [|c chunks]; [congruence|].
  destruct (sorted _ true (c :: chunks)) as [|first rest] eqn:E.
  - pose proof (sorted_perm (fun c : ValidChunk => size c) true (c :: chunks)) as HP.
    rewrite E in HP. apply Permutation_nil in HP. discriminate.
  - apply remove_inner_loop_nonempty. discriminate.
Qed.

(** Ranges that tile a file are disjoint among themselves: outer chunks that
    overlap cannot be completed to a tiling by any unknown chunks. *)
Lemma tiles_outer_disjoint (outer unknown : list Chunk) (S : Z) :
  tiles (outer ++ unknown) S -> ForallOrdPairs disjoint outer.
Proof.
  intros [Hd _]. apply cover_count_disjoint. intros o.
  pose proof (disjoint_cover_count _ Hd o) as H.
  rewrite cover_count_app in H. pose proof (cover_count_nonneg o unknown). lia.
Qed.

(** C1 as stated fails: two chunks that overlap, neither inside the other,
    are both outer chunks, and [calculate_unknown_chunks] raises on them. *)
Lemma overlapping_chunks_not_tiled :
  ~ (forall (chunks : list ValidChunk) (S : Z),
        chunks <> [] ->
        Forall (fun c : ValidChunk => within S c) chunks ->
        exists unknown : list UnknownChunk,
          calculate_unknown_chunks (remove_inner_chunks chunks) S = Ok unknown
          /\ tiles (map valid_base (remove_inner_chunks chunks)
                    ++ map unknown_base unknown) S).
Proof.
  intros H.
  destruct (H [chunk_at 0 10; chunk_at 5 15] 15) as [unknown [Hu _]].
  - discriminate.
  - repeat constructor; simpl; lia.
  - vm_compute in Hu. discriminate Hu.
Qed.

(** C1, amended. For a non-empty list of valid chunks that lie within a file
    of size [S], when the outer chunks are pairwise disjoint,
    [calculate_unknown_chunks] returns, and the ranges of the outer chunks
    together with those of the unknown chunks cover [[0, S)] exactly: they
    are pairwise disjoint and their union is [[0, S)]. *)
Theorem outer_and_unknown_tile (chunks : list ValidChunk) (S : Z) :
  chunks <> [] ->
  Forall (fun c : ValidChunk => within S c) chunks ->
  ForallOrdPairs disjoint (map valid_base (remove_inner_chunks chunks)) ->
  exists unknown : list UnknownChunk,
    calculate_unknown_chunks (remove_inner_chunks chunks) S = Ok unknown
    /\ tiles (map valid_base (remove_inner_chunks chunks)
              ++ map unknown_base unknown) S.
Proof.
  intros Hne Hw Hd.
  pose proof (remove_inner_chunks_nonempty chunks Hne) as Hone.
  set (outer := remove_inner_chunks chunks) in *.
  set (L := map valid_base (sorted by_start false outer)).
  assert (HPL : Permutation L (map valid_base outer))
    by (apply Permutation_map, sorted_perm).
  assert (HS : S <> 0).
  { destruct chunks as [|c chunks]; [congruence|].
    inversion Hw as [|? ? Hc _]; subst. unfold within in Hc. lia. }
  rewrite calculate_unknown_chunks_gaps.
  replace (is_empty outer) with false by (destruct outer; [congruence|reflexivity]).
  replace (S =? 0) with false by (symmetry; now apply Z.eqb_neq).
  cbn [orb]. fold L.
  assert (HLne : L <> []).
  { intros E. rewrite E in HPL. apply Permutation_nil in HPL.
    destruct outer; [congruence|discriminate]. }
  assert (HLw : Forall (within S) L).
  { rewrite Forall_forall in *. intros c Hc.
    apply (Permutation_in _ HPL) in Hc. apply in_map_iff in Hc.
    destruct Hc as [v [<- Hv]]. apply Hw.
    apply remove_inner_chunks_In in Hv. tauto. }
  assert (HLs : StronglySorted (fun a b => start_offset a <= start_offset b) L).
  { apply (StronglySorted_map (key_le by_start false)); [|apply sorted_by_key].
    intros a b Hab. exact Hab. }
  assert (HLc : forall o, cover_count o L <= 1).
  { intros o. rewrite (cover_count_perm o _ _ HPL). now apply disjoint_cover_count. }
  assert (HLchain : StronglySorted precedes L).
  { apply sorted_disjoint_chain; try assumption.
    eapply Forall_impl; [apply within_valid|exact HLw]. }
  destruct (gaps_of_chain L S HLne HLchain HLw) as [U [HU Hcount]].
  exists U. split; [assumption|].
  apply tiles_of_cover_count. intros o.
  rewrite cover_count_app, <- (cover_count_perm o _ _ HPL). apply Hcount.
Qed.

Lemma outer_and_unknown_tile_witness :
  exists unknown : list UnknownChunk,
    calculate_unknown_chunks
      (remove_inner_chunks [chunk_at 600 700; chunk_at 150 400; chunk_at 100 500]) 1000
    = Ok unknown
    /\ tiles (map valid_base
                (remove_inner_chunks
                   [chunk_at 600 700; chunk_at 150 400; chunk_at 100 500])
              ++ map unknown_base unknown) 1000.
Proof.
  apply outer_and_unknown_tile.
  - discriminate.
  - repeat constructor; simpl; lia.
  - change (remove_inner_chunks [chunk_at 600 700; chunk_at 150 400; chunk_at 100 500])
      with [chunk_at 100 500; chunk_at 600 700].
    repeat constructor.
    intros o [H1 H2]. apply contains_offset_true in H1, H2. simpl in H1, H2. lia.
Defined.

(** ** The properties on concrete inputs *)

Lemma remove_inner_chunks_non_containing_witness :
  contains (chunk_at 100 500) (chunk_at 600 700) = false
  /\ contains (chunk_at 600 700) (chunk_at 100 500) = false.
Proof.
  apply (proj1 (remove_inner_chunks_non_containing
                  [chunk_at 600 700; chunk_at 150 400; chunk_at 100 500]));
    vm_compute; tauto.
Defined.

(** Containment: of the candidates [(100, 500)] and [(150, 400)] only the
    outer one remains. *)
Example remove_inner_chunks_containment :
  remove_inner_chunks [chunk_at 150 400; chunk_at 100 500] = [chunk_at 100 500].
Proof. reflexivity. Qed.

(** Two chunks with a gap between them in a file of 4096 bytes. *)
Example calculate_unknown_chunks_gap :
  calculate_unknown_chunks [chunk_at 3000 4096; chunk_at 0 2000] 4096
  = Ok [mkUnknownChunk (mkChunk 2000 3000)].
Proof. reflexivity. Qed.

Example calculate_unknown_chunks_ends :
  calculate_unknown_chunks [chunk_at 10 20] 30
  = Ok [mkUnknownChunk (mkChunk 0 10); mkUnknownChunk (mkChunk 20 30)].
Proof. reflexivity. Qed.

(** Two outer chunks that overlap: the gap would run backwards, its
    construction raises. *)
Example calculate_unknown_chunks_overlap :
  calculate_unknown_chunks (remove_inner_chunks [chunk_at 0 10; chunk_at 5 15]) 15
  = Raise (InvalidInputFormat
             "Chunk has higher start_offset than end_offset: 0xa-0x5").
Proof. reflexivity. Qed.

Example sorted_is_stable :
  sorted fst true [(1, 10); (2, 20); (1, 30); (2, 40)]
  = [(2, 20); (2, 40); (1, 10); (1, 30)].
Proof. reflexivity. Qed.

(** A task whose [lstat] fails: the error becomes the only report. *)
Example process_task_lstat_fails :
  fst (process_task (X := failing_world) default_config (mkTask "in" "in/gone" 0)
         (initial_state failing_world tt (mkTask "in" "in/gone" 0)))
  = Ok (mkTaskResult (Some (mkTask "in" "in/gone" 0))
          [UnknownError (OSError "No such file or directory")] []).
Proof. reflexivity. Qed.

(** A regular file in which the finder sees nothing: no report, no task. *)
Example process_task_nothing_found :
  fst (process_task (X := empty_world) default_config (mkTask "in" "in/fw.bin" 0)
         (initial_state empty_world tt (mkTask "in" "in/fw.bin" 0)))
  = Ok (mkTaskResult (Some (mkTask "in" "in/fw.bin" 0)) [] []).
Proof. reflexivity. Qed.

(* ===================================================================== *)
(** * Further properties *)
(* ===================================================================== *)

(** ** The chunk model *)

(** X1. [contains] is a strict order on chunks: no chunk contains itself, two
    chunks never contain each other, containment is transitive, and a chunk
    is strictly smaller than a chunk that contains it. *)
Theorem contains_strict_order :
  (forall a : Chunk, contains a a = false)
  /\ (forall a b : Chunk, contains a b = true -> contains b a = false)
  /\ (forall a b c : Chunk,
        contains a b = true -> contains b c = true -> contains a c = true)
  /\ (forall a b : Chunk, contains a b = true -> size b < size a).
Proof.
  split; [|split; [|split]].
  - intros a. now apply contains_equal_bounds_false.
  - intros a b H. apply contains_true in H.
    destruct (contains b a) eqn:E; [|reflexivity].
    apply contains_true in E. lia.
  - exact contains_trans.
  - exact contains_size.
Qed.

Lemma contains_strict_order_witness :
  contains (mkChunk 10 20) (mkChunk 0 100) = false
  /\ size (mkChunk 10 20) < size (mkChunk 0 100).
Proof.
  destruct contains_strict_order as [_ [Hasym [_ Hsize]]].
  split; [apply Hasym|apply Hsize]; reflexivity.
Defined.

(** X2. For a chunk [b] that is not empty, [a.contains(b)] holds exactly when
    every offset of [b] is an offset of [a] and [a] starts strictly before
    [b]: a chunk inside another one with the same start is not contained. *)
Theorem contains_iff_offsets (a b : Chunk) :
  start_offset b < end_offset b ->
  (contains a b = true <->
   start_offset a < start_offset b
   /\ forall o : Z, contains_offset b o = true -> contains_offset a o = true).
Proof.
  intros Hb. rewrite contains_true. split.
  - intros [Hs He]. split; [assumption|].
    intros o Ho. apply contains_offset_true in Ho. apply contains_offset_true. lia.
  - intros [Hs Hin]. split; [assumption|].
    assert (H : contains_offset a (end_offset b - 1) = true).
    { apply Hin. apply contains_offset_true. lia. }
    apply contains_offset_true in H. lia.
Qed.

Lemma contains_iff_offsets_witness :
  contains (mkChunk 0 10) (mkChunk 0 5) = true <->
  0 < 0 /\ forall o : Z,
    contains_offset (mkChunk 0 5) o = true -> contains_offset (mkChunk 0 10) o = true.
Proof.
  apply (contains_iff_offsets (mkChunk 0 10) (mkChunk 0 5)). simpl. lia.
Defined.

(** *** [range_hex] *)

Lemma of_pos_no_minus :
  forall (p : positive) (rest : string),
    no_minus rest -> no_minus (HexString.Raw.of_pos p rest).
Proof.
  fix IH 1. intros p rest H.
  do 4 try destruct p as [p|p|]; cbn [HexString.Raw.of_pos];
    try apply IH; cbn [no_minus]; (split; [discriminate|assumption]).
Qed.

Lemma format_x_no_minus (n : Z) : 0 <= n -> no_minus (format_x n).
Proof.
  destruct n as [|p|p]; intros H; simpl.
  - split; [discriminate|exact I].
  - apply of_pos_no_minus. exact I.
  - lia.
Qed.

Lemma format_x_decode (n : Z) :
  0 <= n -> HexString.Raw.to_N (format_x n) 0%N = Z.to_N n.
Proof.
  destruct n as [|p|p]; intros H; simpl format_x.
  - reflexivity.
  - rewrite HexString.Raw.to_N_of_pos. reflexivity.
  - lia.
Qed.

Lemma format_x_injective (n m : Z) :
  0 <= n -> 0 <= m -> format_x n = format_x m -> n = m.
Proof.
  intros Hn Hm H.
  pose proof (format_x_decode n Hn) as Dn. rewrite H, (format_x_decode m Hm) in Dn.
  apply (f_equal Z.of_N) in Dn. rewrite !Z2N.id in Dn by assumption. congruence.
Qed.

Lemma split_at_minus (s1 s2 t1 t2 : string) :
  no_minus s1 -> no_minus s2 ->
  (s1 ++ String "-" t1 = s2 ++ String "-" t2)%string ->
  s1 = s2 /\ t1 = t2.
Proof.
  revert s2. induction s1 as [|c s1 IH]; intros [|c' s2] H1 H2 H; simpl in *.
  - inversion H. auto.
  - inversion H; subst. tauto.
  - inversion H; subst. tauto.
  - inversion H; subst. destruct H1 as [_ H1], H2 as [_ H2].
    destruct (IH s2 H1 H2 H4) as [-> ->]. auto.
Qed.

(** X3. [range_hex] tells chunks apart: two chunks with offsets that are not
    negative and the same [range_hex] have the same bounds. *)
Theorem range_hex_injective (a b : Chunk) :
  0 <= start_offset a -> 0 <= end_offset a ->
  0 <= start_offset b -> 0 <= end_offset b ->
  range_hex a = range_hex b -> a = b.
Proof.
  intros Hsa Hea Hsb Heb H. unfold range_hex in H.
  cbn [String.append] in H. inversion H as [H'].
  apply split_at_minus in H'; try now apply format_x_no_minus.
  destruct H' as [Hs He]. inversion He as [He'].
  apply format_x_injective in Hs, He'; try assumption.
  destruct a, b; simpl in *. congruence.
Qed.

Lemma range_hex_injective_witness :
  mkChunk 256 4096 = mkChunk (255 + 1) (4095 + 1).
Proof.
  apply range_hex_injective; simpl; try lia. reflexivity.
Defined.

Example range_hex_example : range_hex (mkChunk 256 4096) = "0x100-0x1000"%string.
Proof. reflexivity. Qed.

Example range_hex_zero : range_hex (mkChunk 0 255) = "0x0-0xff"%string.
Proof. reflexivity. Qed.

(** ** The reconciler *)

Lemma sorted_of_sorted {A : Type} (key : A -> Z) (reverse : bool) (l : list A) :
  StronglySorted (key_le key reverse) l -> sorted key reverse l = l.
Proof.
  induction 1 as [|x l Hs IH Hx]; simpl; [reflexivity|].
  rewrite IH. destruct l as [|y r]; [reflexivity|]. simpl.
  inversion Hx as [|? ? Hxy _]; subst.
  apply (key_before_false key reverse y x) in Hxy. now rewrite Hxy.
Qed.

Lemma remove_inner_loop_prefix (rest outer_chunks : list ValidChunk) :
  exists kept : list ValidChunk,
    remove_inner_loop outer_chunks rest = outer_chunks ++ kept.
Proof.
  revert outer_chunks. induction rest as [|c rest IH]; intros outer; simpl.
  - exists []. now rewrite app_nil_r.
  - destruct (negb _).
    + destruct (IH (outer ++ [c])) as [kept Hk]. exists (c :: kept).
      rewrite Hk, <- app_assoc. reflexivity.
    + apply IH.
Qed.

Lemma remove_inner_loop_covers (rest pre outer_chunks : list ValidChunk) :
  (forall d : ValidChunk, In d pre ->
     In d outer_chunks \/
     exists o : ValidChunk, In o outer_chunks /\ contains o d = true) ->
  forall d : ValidChunk, In d (pre ++ rest) ->
    In d (remove_inner_loop outer_chunks rest) \/
    exists o : ValidChunk,
      In o (remove_inner_loop outer_chunks rest) /\ contains o d = true.
Proof.
  revert pre outer_chunks. induction rest as [|c rest IH]; intros pre outer Hcov d Hd.
  - rewrite app_nil_r in Hd. simpl. auto.
  - replace (pre ++ c :: rest) with ((pre ++ [c]) ++ rest) in Hd
      by (rewrite <- app_assoc; reflexivity).
    simpl. destruct (existsb (fun o : ValidChunk => contains o c) outer) eqn:E; simpl.
    + apply (IH (pre ++ [c])); [|assumption].
      intros x Hx. apply in_app_or in Hx. destruct Hx as [Hx|[<-|[]]]; [auto|].
      right. apply existsb_exists in E. exact E.
    + apply (IH (pre ++ [c])); [|assumption].
      intros x Hx. apply in_app_or in Hx. destruct Hx as [Hx|[<-|[]]].
      * destruct (Hcov x Hx) as [Hin|[o [Ho Hc]]].
        -- left. apply in_or_app. now left.
        -- right. exists o. split; [apply in_or_app; now left|assumption].
      * left. apply in_or_app. right. now left.
Qed.

(** X4. [remove_inner_chunks] keeps exactly the chunks of its input that no
    chunk of the input contains, each as often as the input has it; so it
    returns at most as many chunks as it is given. *)
Theorem remove_inner_chunks_keeps_uncontained (chunks : list ValidChunk) :
  (forall c : ValidChunk,
      In c (remove_inner_chunks chunks) <->
      In c chunks /\ forall d : ValidChunk, In d chunks -> contains d c = false)
  /\ Permutation (remove_inner_chunks chunks) (filter (uncontained chunks) chunks)
  /\ (List.length (remove_inner_chunks chunks) <= List.length chunks)%nat.
Proof.
  split; [|split].
  - intros c. apply remove_inner_chunks_In.
  - apply remove_inner_chunks_kept.
  - rewrite (Permutation_length (remove_inner_chunks_kept chunks)).
    apply filter_length_le.
Qed.

(** X5. The chunks [remove_inner_chunks] returns are ordered by size, largest
    first, and the first of them is a largest chunk of the input. *)
Theorem remove_inner_chunks_largest_first (chunks : list ValidChunk) :
  StronglySorted by_size_descending (remove_inner_chunks chunks)
  /\ forall (first : ValidChunk) (rest : list ValidChunk),
       remove_inner_chunks chunks = first :: rest ->
       forall c : ValidChunk, In c chunks -> size c <= size first.
Proof.
  split.
  - rewrite remove_inner_chunks_filter. apply StronglySorted_filter.
    exact (sorted_by_key by_size true chunks).
  - intros first rest E c Hc.
    rewrite remove_inner_chunks_loop in E.
    pose proof (sorted_by_key by_size true chunks) as Hs.
    pose proof (sorted_perm by_size true chunks) as HP.
    destruct (sorted by_size true chunks) as [|f0 r0].
    + apply Permutation_nil in HP. subst. contradiction.
    + simpl in E. destruct (remove_inner_loop_prefix r0 [f0]) as [kept Hk].
      rewrite Hk in E. inversion E; subst.
      apply (Permutation_in _ (Permutation_sym HP)) in Hc.
      inversion Hs as [|? ? _ Hf]; subst. rewrite Forall_forall in Hf.
      destruct Hc as [<-|Hc]; [lia|]. exact (Hf c Hc).
Qed.

Lemma remove_inner_chunks_largest_first_witness :
  size (chunk_at 150 400) <= size (chunk_at 100 500).
Proof.
  apply (proj2 (remove_inner_chunks_largest_first
                  [chunk_at 600 700; chunk_at 150 400; chunk_at 100 500])
           (chunk_at 100 500) [chunk_at 600 700] eq_refl).
  simpl. tauto.
Defined.

(** X6. Nothing a valid chunk covers is lost: every chunk of the input is in
    the result or inside a chunk of the result, so an offset lies in a chunk
    of the input exactly when it lies in a chunk of the result. *)
Theorem remove_inner_chunks_covers (chunks : list ValidChunk) :
  (forall c : ValidChunk, In c chunks ->
     In c (remove_inner_chunks chunks) \/
     exists o : ValidChunk,
       In o (remove_inner_chunks chunks) /\ contains o c = true)
  /\ forall offset : Z,
       Exists (fun c : ValidChunk => contains_offset c offset = true) chunks <->
       Exists (fun c : ValidChunk => contains_offset c offset = true)
         (remove_inner_chunks chunks).
Proof.
  assert (Hcov : forall c : ValidChunk, In c chunks ->
            In c (remove_inner_chunks chunks) \/
            exists o : ValidChunk,
              In o (remove_inner_chunks chunks) /\ contains o c = true).
  { intros c Hc. rewrite remove_inner_chunks_loop.
    apply (remove_inner_loop_covers (sorted by_size true chunks) [] []).
    - intros d [].
    - simpl. apply (Permutation_in _ (Permutation_sym (sorted_perm _ _ _))), Hc. }
  split; [exact Hcov|].
  intros offset. rewrite !Exists_exists. split.
  - intros [c [Hc Ho]]. destruct (Hcov c Hc) as [Hin|[o [Hin Hoc]]].
    + eauto.
    + exists o. split; [assumption|].
      apply contains_true in Hoc. apply contains_offset_true in Ho.
      apply contains_offset_true. lia.
  - intros [c [Hc Ho]]. exists c. split; [|assumption].
    apply remove_inner_chunks_In in Hc. tauto.
Qed.

(** X7. [remove_inner_chunks] is idempotent. *)
Theorem remove_inner_chunks_idempotent (chunks : list ValidChunk) :
  remove_inner_chunks (remove_inner_chunks chunks) = remove_inner_chunks chunks.
Proof.
  rewrite (remove_inner_chunks_filter (remove_inner_chunks chunks)).
  assert (Hs : StronglySorted (key_le by_size true) (remove_inner_chunks chunks)).
  { rewrite remove_inner_chunks_filter. apply StronglySorted_filter, sorted_by_key. }
  rewrite (sorted_of_sorted _ _ _ Hs).
  apply forallb_filter_id. apply forallb_forall. intros c Hc.
  apply uncontained_true. intros d Hd.
  apply remove_inner_chunks_In in Hc, Hd. destruct Hc as [_ Hc], Hd as [Hd _]. auto.
Qed.

(** X8. The outer chunks do not depend on the order of the input: for a
    permutation of the input, [remove_inner_chunks] returns a permutation of
    its result. *)
Theorem remove_inner_chunks_order (chunks chunks' : list ValidChunk) :
  Permutation chunks chunks' ->
  Permutation (remove_inner_chunks chunks) (remove_inner_chunks chunks').
Proof.
  apply remove_inner_chunks_perm.
Qed.

Lemma remove_inner_chunks_order_witness :
  Permutation
    (remove_inner_chunks [chunk_at 10 20; chunk_at 12 18; chunk_at 30 40])
    (remove_inner_chunks [chunk_at 30 40; chunk_at 12 18; chunk_at 10 20]).
Proof.
  apply remove_inner_chunks_order.
  apply (Permutation_rev [chunk_at 10 20; chunk_at 12 18; chunk_at 30 40]).
Defined.

(** ** The gaps *)

Lemma ForallOrdPairs_perm {A : Type} (R : A -> A -> Prop) (l1 l2 : list A) :
  (forall a b, R a b -> R b a) ->
  Permutation l1 l2 -> ForallOrdPairs R l1 -> ForallOrdPairs R l2.
Proof.
  intros Hsym. induction 1 as [|x l1 l2 HP IH|x y l|l1 l2 l3 H1 IH1 H2 IH2]; intros H.
  - assumption.
  - inversion H; subst. constructor; [|auto].
    eapply Permutation_Forall; eassumption.
  - inversion H as [|? ? Hy Hr]; subst. inversion Hr as [|? ? Hx Hl]; subst.
    inversion Hy; subst. repeat constructor; auto.
  - auto.
Qed.

Lemma ForallOrdPairs_filter {A : Type} (R : A -> A -> Prop) (f : A -> bool)
    (l : list A) :
  ForallOrdPairs R l -> ForallOrdPairs R (filter f l).
Proof.
  induction 1 as [|a l Ha Hl IH]; simpl; [constructor|].
  destruct (f a); [|assumption]. constructor; [|assumption].
  rewrite Forall_forall in *. intros b Hb. apply filter_In in Hb. apply Ha, Hb.
Qed.

Lemma ForallOrdPairs_map {A B : Type} (R : B -> B -> Prop) (f : A -> B) (l : list A) :
  ForallOrdPairs (fun a b => R (f a) (f b)) l -> ForallOrdPairs R (map f l).
Proof.
  induction 1 as [|a l Ha Hl IH]; simpl; constructor; [|assumption].
  rewrite Forall_forall in *. intros b Hb. apply in_map_iff in Hb.
  destruct Hb as [x [<- Hx]]. auto.
Qed.

Lemma ForallOrdPairs_In_impl {A : Type} (Q R : A -> A -> Prop) (l : list A) :
  (forall a b, In a l -> In b l -> Q a b -> R a b) ->
  ForallOrdPairs Q l -> ForallOrdPairs R l.
Proof.
  intros Himp H. induction H as [|a l Ha Hl IH]; constructor.
  - rewrite Forall_forall in *. intros b Hb.
    apply Himp; [now left|now right|auto].
  - apply IH. intros x y Hx Hy. apply Himp; now right.
Qed.

Lemma disjoint_sym (a b : Chunk) : disjoint a b -> disjoint b a.
Proof. unfold disjoint. intros H o [H1 H2]. exact (H o (conj H2 H1)). Qed.

Lemma precedes_disjoint (a b : Chunk) : precedes a b -> disjoint a b.
Proof.
  unfold precedes, disjoint. intros H o [Ha Hb].
  apply contains_offset_true in Ha, Hb. lia.
Qed.

Lemma chain_disjoint (l : list Chunk) :
  StronglySorted precedes l -> ForallOrdPairs disjoint l.
Proof.
  induction 1 as [|a l Hs IH Ha]; constructor; [|assumption].
  eapply Forall_impl; [apply precedes_disjoint|exact Ha].
Qed.

Lemma gaps_between_adjacent (l : list Chunk) (acc U : list UnknownChunk) :
  gaps_between (pairwise l) acc = Ok U ->
  Forall (fun p : Chunk * Chunk => precedes (fst p) (snd p)) (pairwise l).
Proof.
  revert acc. induction l as [|a l IH]; intros acc H; [constructor|].
  destruct l as [|b r]; [constructor|].
  change (pairwise (a :: b :: r)) with ((a, b) :: pairwise (b :: r)) in *.
  cbn [gaps_between] in H.
  destruct (Z.eqb_spec (start_offset b - end_offset a) 0) as [Heq|Hne]; cbn [negb] in H.
  - constructor; [unfold precedes; simpl; lia|]. exact (IH acc H).
  - unfold UnknownChunk_init in H.
    destruct (Chunk_init (end_offset a) (start_offset b)) as [c|e] eqn:E;
      cbn [obind] in H; [|discriminate].
    apply Chunk_init_inv in E. constructor; [unfold precedes; simpl; lia|].
    exact (IH _ H).
Qed.

Lemma adjacent_chain (l : list Chunk) :
  Forall valid l ->
  Forall (fun p : Chunk * Chunk => precedes (fst p) (snd p)) (pairwise l) ->
  StronglySorted precedes l.
Proof.
  induction l as [|a l IH]; intros Hv Hp; [constructor|].
  inversion Hv as [|? ? Hva Hvl]; subst.
  destruct l as [|b r]; [repeat constructor|].
  change (pairwise (a :: b :: r)) with ((a, b) :: pairwise (b :: r)) in Hp.
  inversion Hp as [|? ? Hab Hp']; subst. simpl in Hab.
  specialize (IH Hvl Hp'). constructor; [assumption|].
  inversion IH as [|? ? _ Hb]; subst. inversion Hvl as [|? ? Hvb _]; subst.
  constructor; [assumption|].
  eapply Forall_impl; [|exact Hb].
  unfold precedes, valid in *. intros z Hz. lia.
Qed.

Lemma gaps_of_returns (l : list Chunk) (S : Z) :
  StronglySorted precedes l -> Forall valid l ->
  exists U : list UnknownChunk, gaps_of l S = Ok U.
Proof.
  destruct l as [|a l]; [exists []; reflexivity|]. intros Hs Hv.
  destruct (gaps_between_chain l a Hs Hv) as [U1 [HU1 [Hlt _]]].
  assert (Hva : valid a) by now inversion Hv.
  unfold valid in Hva. unfold gaps_of. rewrite last_cons_default.
  destruct (Z.eqb_spec (start_offset a) 0) as [H0|H0]; cbn [negb];
    [|rewrite UnknownChunk_init_ok by lia]; cbn [obind];
    rewrite gaps_between_acc, HU1; cbn [obind];
    (destruct (Z.ltb_spec (end_offset (List.last l a)) S) as [Hl|Hl];
     [rewrite UnknownChunk_init_ok by lia|]; cbn [obind]; eexists; reflexivity).
Qed.

Lemma gaps_of_adjacent (l : list Chunk) (S : Z) (U : list UnknownChunk) :
  gaps_of l S = Ok U ->
  Forall (fun p : Chunk * Chunk => precedes (fst p) (snd p)) (pairwise l).
Proof.
  destruct l as [|a l]; [constructor|]. unfold gaps_of. intros H.
  destruct (if negb (start_offset a =? 0) then _ else _) as [u0|e];
    cbn [obind] in H; [|discriminate].
  destruct (gaps_between (pairwise (a :: l)) u0) as [u1|e] eqn:E;
    cbn [obind] in H; [|discriminate].
  exact (gaps_between_adjacent _ _ _ E).
Qed.

Lemma sorted_chunks_bounds (chunks : list ValidChunk) :
  let L := map valid_base (sorted by_start false chunks) in
  Permutation L (map valid_base chunks)
  /\ StronglySorted (fun a b => start_offset a <= start_offset b) L.
Proof.
  split.
  - apply Permutation_map, sorted_perm.
  - apply (StronglySorted_map (key_le by_start false)); [|apply sorted_by_key].
    intros a b Hab. exact Hab.
Qed.

(** X9. For chunks that are valid and a file that is not empty,
    [calculate_unknown_chunks] returns if and only if the chunks are
    pairwise disjoint; on chunks that overlap it raises. *)
Theorem calculate_unknown_chunks_returns_iff_disjoint
    (chunks : list ValidChunk) (S : Z) :
  Forall (fun c : ValidChunk => valid c) chunks ->
  S <> 0 ->
  ((exists unknown, calculate_unknown_chunks chunks S = Ok unknown)
   <-> ForallOrdPairs disjoint (map valid_base chunks)).
Proof.
  intros Hv HS. rewrite calculate_unknown_chunks_gaps.
  destruct chunks as [|c0 chunks0]; [simpl; split; [constructor|eauto]|].
  set (chunks := c0 :: chunks0) in *.
  replace (is_empty chunks) with false by reflexivity.
  replace (S =? 0) with false by (symmetry; now apply Z.eqb_neq). cbn [orb].
  destruct (sorted_chunks_bounds chunks) as [HPL HLs].
  set (L := map valid_base (sorted by_start false chunks)) in *.
  assert (HLv : Forall valid L).
  { rewrite Forall_forall in *. intros c Hc.
    apply (Permutation_in _ HPL) in Hc. apply in_map_iff in Hc.
    destruct Hc as [v [<- Hin]]. auto. }
  split.
  - intros [U HU].
    apply (ForallOrdPairs_perm disjoint L _ disjoint_sym HPL).
    apply chain_disjoint, adjacent_chain; [assumption|].
    exact (gaps_of_adjacent _ _ _ HU).
  - intros Hd. apply gaps_of_returns; [|assumption].
    apply sorted_disjoint_chain; try assumption.
    intros o. rewrite (cover_count_perm o _ _ HPL). now apply disjoint_cover_count.
Qed.

Lemma calculate_unknown_chunks_returns_iff_disjoint_witness :
  (exists unknown,
      calculate_unknown_chunks [chunk_at 30 40; chunk_at 10 20] 50 = Ok unknown)
  <-> ForallOrdPairs disjoint (map valid_base [chunk_at 30 40; chunk_at 10 20]).
Proof.
  apply calculate_unknown_chunks_returns_iff_disjoint.
  - repeat constructor; simpl; lia.
  - lia.
Defined.

Lemma disjoint_chunks_tile (chunks : list ValidChunk) (S : Z) :
  chunks <> [] ->
  Forall (fun c : ValidChunk => within S c) chunks ->
  ForallOrdPairs disjoint (map valid_base chunks) ->
  exists unknown : list UnknownChunk,
    calculate_unknown_chunks chunks S = Ok unknown
    /\ tiles (map valid_base chunks ++ map unknown_base unknown) S.
Proof.
  intros Hne Hw Hd.
  assert (HS : S <> 0).
  { destruct chunks as [|c chunks]; [congruence|].
    inversion Hw as [|? ? Hc _]; subst. unfold within in Hc. lia. }
  rewrite calculate_unknown_chunks_gaps.
  replace (is_empty chunks) with false by (destruct chunks; [congruence|reflexivity]).
  replace (S =? 0) with false by (symmetry; now apply Z.eqb_neq). cbn [orb].
  destruct (sorted_chunks_bounds chunks) as [HPL HLs].
  set (L := map valid_base (sorted by_start false chunks)) in *.
  assert (HLne : L <> []).
  { intros E. rewrite E in HPL. apply Permutation_nil in HPL.
    destruct chunks; [congruence|discriminate]. }
  assert (HLw : Forall (within S) L).
  { rewrite Forall_forall in *. intros c Hc.
    apply (Permutation_in _ HPL) in Hc. apply in_map_iff in Hc.
    destruct Hc as [v [<- Hv]]. auto. }
  assert (HLchain : StronglySorted precedes L).
  { apply sorted_disjoint_chain; try assumption.
    - eapply Forall_impl; [apply within_valid|exact HLw].
    - intros o. rewrite (cover_count_perm o _ _ HPL). now apply disjoint_cover_count. }
  destruct (gaps_of_chain L S HLne HLchain HLw) as [U [HU Hcount]].
  exists U. split; [assumption|].
  apply tiles_of_cover_count. intros o.
  rewrite cover_count_app, <- (cover_count_perm o _ _ HPL). apply Hcount.
Qed.

(** X10. For any non-empty list of pairwise disjoint valid chunks within a
    file of size [S], [calculate_unknown_chunks] returns the gaps, and the
    chunks together with the gaps cover [[0, S)] exactly. *)
Theorem calculate_unknown_chunks_fills_gaps (chunks : list ValidChunk) (S : Z) :
  chunks <> [] ->
  Forall (fun c : ValidChunk => within S c) chunks ->
  ForallOrdPairs disjoint (map valid_base chunks) ->
  exists unknown : list UnknownChunk,
    calculate_unknown_chunks chunks S = Ok unknown
    /\ tiles (map valid_base chunks ++ map unknown_base unknown) S.
Proof.
  apply disjoint_chunks_tile.
Qed.

Lemma calculate_unknown_chunks_fills_gaps_witness :
  exists unknown : list UnknownChunk,
    calculate_unknown_chunks [chunk_at 30 40; chunk_at 10 20] 50 = Ok unknown
    /\ tiles (map valid_base [chunk_at 30 40; chunk_at 10 20]
              ++ map unknown_base unknown) 50.
Proof.
  apply calculate_unknown_chunks_fills_gaps.
  - discriminate.
  - repeat constructor; simpl; lia.
  - repeat constructor.
    intros o [H1 H2]. apply contains_offset_true in H1, H2. simpl in H1, H2. lia.
Defined.

(** X11. When any two chunks the finder reports are disjoint or one contains
    the other, the reconciler cannot fail: for such a non-empty list of
    valid chunks within a file of size [S], [calculate_unknown_chunks]
    returns on the outer chunks, and outer and unknown chunks cover
    [[0, S)] exactly. *)
Theorem nested_chunks_tile (chunks : list ValidChunk) (S : Z) :
  chunks <> [] ->
  Forall (fun c : ValidChunk => within S c) chunks ->
  ForallOrdPairs (fun a b : ValidChunk => nested_or_disjoint a b) chunks ->
  exists unknown : list UnknownChunk,
    calculate_unknown_chunks (remove_inner_chunks chunks) S = Ok unknown
    /\ tiles (map valid_base (remove_inner_chunks chunks)
              ++ map unknown_base unknown) S.
Proof.
  intros Hne Hw Hn. apply disjoint_chunks_tile.
  - now apply remove_inner_chunks_nonempty.
  - rewrite Forall_forall in *. intros c Hc.
    apply remove_inner_chunks_In in Hc. apply Hw. tauto.
  - apply ForallOrdPairs_map.
    apply (ForallOrdPairs_In_impl (fun a b : ValidChunk => nested_or_disjoint a b)).
    + intros a b Ha Hb [H|[H|H]]; [assumption| |].
      * apply remove_inner_chunks_In in Hb. destruct Hb as [_ Hb].
        apply remove_inner_chunks_In in Ha. destruct Ha as [Ha _].
        rewrite (Hb a Ha) in H. discriminate.
      * apply remove_inner_chunks_In in Ha. destruct Ha as [_ Ha].
        apply remove_inner_chunks_In in Hb. destruct Hb as [Hb _].
        rewrite (Ha b Hb) in H. discriminate.
    + rewrite remove_inner_chunks_filter. apply ForallOrdPairs_filter.
      apply (ForallOrdPairs_perm _ chunks);
        [|apply Permutation_sym, sorted_perm|assumption].
      intros a b H. unfold nested_or_disjoint in *.
      destruct H as [H|[H|H]]; [left; now apply disjoint_sym|tauto|tauto].
Qed.

Lemma nested_chunks_tile_witness :
  exists unknown : list UnknownChunk,
    calculate_unknown_chunks
      (remove_inner_chunks [chunk_at 150 400; chunk_at 100 500]) 1000 = Ok unknown
    /\ tiles (map valid_base (remove_inner_chunks [chunk_at 150 400; chunk_at 100 500])
              ++ map unknown_base unknown) 1000.
Proof.
  apply nested_chunks_tile.
  - discriminate.
  - repeat constructor; simpl; lia.
  - constructor; [|constructor; constructor].
    constructor; [|constructor]. right. right. reflexivity.
Defined.

Lemma gaps_between_length (pairs : list (Chunk * Chunk)) (acc U : list UnknownChunk) :
  gaps_between pairs acc = Ok U ->
  (List.length U <= List.length acc + List.length pairs)%nat.
Proof.
  revert acc. induction pairs as [|[c n] pairs IH]; intros acc H; simpl in H.
  - inversion H; subst. simpl. lia.
  - destruct (negb _).
    + destruct (UnknownChunk_init _ _) as [u|e]; simpl in H; [|discriminate].
      apply IH in H. rewrite length_app in H. simpl in *. lia.
    + apply IH in H. simpl. lia.
Qed.

Lemma pairwise_length {A : Type} (l : list A) :
  List.length (pairwise l) = (List.length l - 1)%nat.
Proof.
  induction l as [|a l IH]; [reflexivity|].
  destruct l as [|b r]; [reflexivity|].
  change (pairwise (a :: b :: r)) with ((a, b) :: pairwise (b :: r)).
  simpl in *. lia.
Qed.

(** X12. [calculate_unknown_chunks] returns at most one unknown chunk more
    than it is given chunks: one before the first chunk, one between two
    neighbours, one after the last chunk. *)
Theorem calculate_unknown_chunks_count (chunks : list ValidChunk) (S : Z)
    (unknown : list UnknownChunk) :
  calculate_unknown_chunks chunks S = Ok unknown ->
  (List.length unknown <= List.length chunks + 1)%nat.
Proof.
  rewrite calculate_unknown_chunks_gaps.
  destruct (is_empty chunks || (S =? 0)).
  - intros H. inversion H; subst. simpl. lia.
  - destruct (sorted_chunks_bounds chunks) as [HPL _].
    apply Permutation_length in HPL.
    rewrite (length_map valid_base chunks) in HPL. rewrite <- HPL.
    generalize (map valid_base (sorted by_start false chunks)). intros L H.
    destruct L as [|a l]; [inversion H; subst; simpl; lia|].
    unfold gaps_of in H.
    destruct (if negb (start_offset a =? 0) then _ else _) as [u0|e] eqn:E0;
      cbn [obind] in H; [|discriminate].
    assert (H0 : (List.length u0 <= 1)%nat).
    { destruct (negb _); [|inversion E0; subst; simpl; lia].
      destruct (UnknownChunk_init _ _); simpl in E0; inversion E0; subst; simpl; lia. }
    clear E0.
    destruct (gaps_between (pairwise (a :: l)) u0) as [u1|e] eqn:E1;
      cbn [obind] in H; [|discriminate].
    apply gaps_between_length in E1. rewrite pairwise_length in E1.
    cbv zeta in H. destruct (_ <? S).
    + destruct (UnknownChunk_init _ _); simpl in H; inversion H; subst.
      rewrite length_app. simpl in *. lia.
    + inversion H; subst. simpl in *. lia.
Qed.

Lemma calculate_unknown_chunks_count_witness :
  (List.length [mkUnknownChunk (mkChunk 0 10); mkUnknownChunk (mkChunk 20 30)]
   <= List.length [chunk_at 10 20] + 1)%nat.
Proof.
  apply (calculate_unknown_chunks_count [chunk_at 10 20] 30). reflexivity.
Defined.

(** ** The entropy buffer *)

(** X13. [calculate_buffer_size] raises [ZeroDivisionError] exactly for a
    chunk count of zero; otherwise its result is at most [max_limit], and at
    least [min_limit] when the limits are in order. *)
Theorem calculate_buffer_size_clamped (file_size chunk_count min_limit max_limit : Z) :
  (calculate_buffer_size file_size chunk_count min_limit max_limit = None
   <-> chunk_count = 0)
  /\ forall buffer_size : Z,
       calculate_buffer_size file_size chunk_count min_limit max_limit
       = Some buffer_size ->
       buffer_size <= max_limit
       /\ (min_limit <= max_limit -> min_limit <= buffer_size)
       /\ (min_limit <= file_size / chunk_count <= max_limit ->
           buffer_size = file_size / chunk_count).
Proof.
  unfold calculate_buffer_size, floordiv.
  destruct (Z.eqb_spec chunk_count 0) as [H0|H0].
  - split; [tauto|]. intros b H. discriminate.
  - split; [split; [discriminate|contradiction]|].
    intros b H. inversion H; subst. lia.
Qed.

Lemma calculate_buffer_size_clamped_witness :
  5000 <= 1048576 /\ (1024 <= 1048576 -> 1024 <= 5000)
  /\ (1024 <= 400000 / 80 <= 1048576 -> 5000 = 400000 / 80).
Proof.
  apply (proj2 (calculate_buffer_size_clamped 400000 80 1024 1048576)). reflexivity.
Defined.

(** X14. The buffer [calculate_entropy] reads a file of [file_size] bytes
    with is between 1 KiB and 1 MiB; for a file between 80 KiB and 80 MiB it
    splits the file into 80 buffers, with fewer than 80 bytes left over; a
    smaller file is read in buffers of 1 KiB, a larger one in buffers of
    1 MiB. *)
Theorem entropy_buffer_size_bounds (file_size : Z) :
  exists buffer_size : Z,
    entropy_buffer_size file_size = Some buffer_size
    /\ 1024 <= buffer_size <= 1048576
    /\ (81920 <= file_size <= 83886080 ->
        80 * buffer_size <= file_size < 80 * buffer_size + 80)
    /\ (file_size < 81920 -> buffer_size = 1024)
    /\ (83886080 < file_size -> buffer_size = 1048576).
Proof.
  unfold entropy_buffer_size, calculate_buffer_size, floordiv.
  change (80 =? 0) with false. change (1024 * 1024) with 1048576. cbv iota zeta.
  exists (Z.min (Z.max 1024 (file_size / 80)) 1048576). split; [reflexivity|].
  pose proof (Z.div_mod file_size 80 ltac:(lia)) as Hdm.
  pose proof (Z.mod_pos_bound file_size 80 ltac:(lia)) as Hm.
  repeat split; lia.
Qed.

(** ** The handlers *)

(** X15. After [with_prepended] the given handlers come first, in their
    order, before all handlers the collection had: they have the highest
    priority, and handlers prepended later come before those prepended
    earlier.  With no handler given the collection is returned as it
    is. *)
Theorem with_prepended_flat (self : Handlers) (by_priority : list Handler) :
  Handlers_flat (with_prepended self by_priority) = by_priority ++ Handlers_flat self
  /\ (by_priority = [] -> with_prepended self by_priority = self)
  /\ (forall more : list Handler,
        Handlers_flat (with_prepended (with_prepended self by_priority) more)
        = more ++ by_priority ++ Handlers_flat self).
Proof.
  assert (H : forall (hs : Handlers) (extra : list Handler),
             Handlers_flat (with_prepended hs extra) = extra ++ Handlers_flat hs).
  { intros hs extra. unfold with_prepended, Handlers_flat.
    destruct extra; reflexivity. }
  split; [apply H|]. split.
  - intros ->. reflexivity.
  - intros more. now rewrite !H.
Qed.

(** ** The exit code of several runs *)

Lemma get_exit_code_from_reports_cases (reports : Reports) :
  get_exit_code_from_reports reports
  = if severity_in ERROR (map severity reports) then 1 else 0.
Proof.
  unfold get_exit_code_from_reports, errors. simpl.
  destruct (severity_in ERROR _); [reflexivity|].
  destruct (severity_in WARNING _); reflexivity.
Qed.

(** X16. The exit code is 0 or 1, and appending the reports of two runs
    gives the larger of their exit codes: one error anywhere makes the whole
    run fail, whatever the order of the reports. *)
Theorem get_exit_code_from_reports_extend (reports more : Reports) :
  (get_exit_code_from_reports reports = 0 \/ get_exit_code_from_reports reports = 1)
  /\ get_exit_code_from_reports (reports ++ more)
     = Z.max (get_exit_code_from_reports reports) (get_exit_code_from_reports more).
Proof.
  rewrite !get_exit_code_from_reports_cases. unfold severity_in.
  rewrite map_app, existsb_app.
  destruct (existsb _ (map severity reports)), (existsb _ (map severity more));
    simpl; auto.
Qed.

(** ** What a task does with a path *)

Lemma fold_add_new_task_new_tasks (l : list Task) (r : TaskResult) :
  new_tasks (fold_left add_new_task l r) = new_tasks r ++ l.
Proof.
  revert r. induction l as [|x l IH]; intros r; simpl.
  - now rewrite app_nil_r.
  - rewrite IH. simpl. now rewrite <- app_assoc.
Qed.

Lemma fold_add_new_task_reports (l : list Task) (r : TaskResult) :
  reports (fold_left add_new_task l r) = reports r.
Proof.
  revert r. induction l as [|x l IH]; intros r; simpl; [reflexivity|].
  now rewrite IH.
Qed.

Section TaskFacts.
Context {X : Externals} (config : ExtractionConfig).

Lemma for_each_add_new_task {A : Type} (f : A -> Task) (l : list A) (st : State) :
  for_each l (fun a => result_add_new_task (f a)) st
  = (Ok tt, mkState (world st) (fold_left add_new_task (map f l) (result st))
              (trace st)).
Proof.
  revert st. induction l as [|x l IH]; intros st; simpl.
  - destruct st; reflexivity.
  - unfold bind. simpl. rewrite IH. reflexivity.
Qed.

(** X17. A task for a directory enqueues one task per entry of the
    directory, in the order of the entries, each under the root and at the
    depth of the task itself; it reads nothing else and reports
    nothing. *)
Theorem process_task_directory (t : Task) (st : State) (mode size : Z)
    (paths : list Path) :
  depth t < max_depth config ->
  valid_path (path t) = true ->
  lstat (path t) (world st) = Ok (mode, size) ->
  S_ISDIR mode = true ->
  iterdir (path t) (world st) = Ok paths ->
  exists (r : TaskResult) (st' : State),
    process_task config t st = (Ok r, st')
    /\ new_tasks r = map (fun p => mkTask (root t) p (depth t)) paths
    /\ reports r = perf_counter_reports "Process Task" (world st)
    /\ world st' = world st
    /\ trace st'
       = trace st ++ [CallLstat (path t); LogDebug "Found directory";
                      CallIterdir (path t)].
Proof.
  intros Hd Hvp Hl Hdir Hit.
  unfold process_task, bind, try_except, PerfCounter, _process_task.
  simpl. destruct (Z.geb_spec (depth t) (max_depth config)) as [Hge|_]; [lia|].
  rewrite Hvp. simpl.
  unfold query, bind, emit, get_world, lift. simpl. rewrite Hl. simpl.
  rewrite Hdir. simpl. rewrite Hit. simpl.
  rewrite for_each_add_new_task. simpl.
  eexists. eexists. split; [reflexivity|]. simpl.
  rewrite fold_add_report_reports, fold_add_report_new_tasks.
  rewrite fold_add_new_task_new_tasks, fold_add_new_task_reports. simpl.
  rewrite <- !app_assoc. repeat split.
Qed.

(** X18. A path with invalid characters, a symbolic link and an empty file
    are skipped: the task enqueues nothing, leaves the world as it is, and
    apart from log lines does at most the [lstat]; the file is not opened
    and not searched. *)
Theorem process_task_skips (t : Task) (st : State) :
  depth t < max_depth config ->
  valid_path (path t) = false
  \/ (exists mode size : Z,
        valid_path (path t) = true
        /\ lstat (path t) (world st) = Ok (mode, size)
        /\ S_ISDIR mode = false
        /\ (S_ISLNK mode = true \/ size = 0)) ->
  exists (r : TaskResult) (st' : State) (events : list Event),
    process_task config t st = (Ok r, st')
    /\ new_tasks r = []
    /\ reports r = perf_counter_reports "Process Task" (world st)
    /\ world st' = world st
    /\ trace st' = trace st ++ events
    /\ Forall (fun ev => is_log ev = true \/ ev = CallLstat (path t)) events.
Proof.
  intros Hd Hcase.
  unfold process_task, bind, try_except, PerfCounter, _process_task.
  simpl. destruct (Z.geb_spec (depth t) (max_depth config)) as [Hge|_]; [lia|].
  destruct Hcase as [Hvp|[mode [size [Hvp [Hl [Hdir Hskip]]]]]]; rewrite Hvp; simpl.
  - eexists. eexists. eexists. split; [reflexivity|]. simpl.
    rewrite fold_add_report_reports, fold_add_report_new_tasks. simpl.
    repeat split. constructor; [now left|constructor].
  - unfold query, bind, emit, get_world, lift. simpl. rewrite Hl. simpl.
    rewrite Hdir.
    assert (Hfin : forall msg : string,
      exists (r : TaskResult) (st' : State) (events : list Event),
        (Ok (fold_left add_report
               (perf_counter_reports "Process Task" (world st)) (TaskResult_init t)),
         mkState (world st)
           (fold_left add_report
              (perf_counter_reports "Process Task" (world st)) (TaskResult_init t))
           ((trace st ++ [CallLstat (path t)]) ++ [LogDebug msg]))
        = (Ok r, st')
        /\ new_tasks r = []
        /\ reports r = perf_counter_reports "Process Task" (world st)
        /\ world st' = world st
        /\ trace st' = trace st ++ events
        /\ Forall (fun ev => is_log ev = true \/ ev = CallLstat (path t)) events).
    { intros msg. eexists. eexists. exists [CallLstat (path t); LogDebug msg].
      split; [reflexivity|]. simpl.
      rewrite fold_add_report_reports, fold_add_report_new_tasks. simpl.
      rewrite <- app_assoc. repeat split.
      constructor; [now right|]. constructor; [now left|constructor]. }
    destruct (S_ISLNK mode).
    + apply Hfin.
    + destruct Hskip as [Hs|Hs]; [discriminate|]. subst size. apply Hfin.
Qed.

End TaskFacts.

(** ** Running statements *)

Section RunFacts.
Context {X : Externals}.

Lemma bind_ok {A B : Type} (m : M A) (f : A -> M B) (st st' : State) (a : A) :
  m st = (Ok a, st') -> bind m f st = f a st'.
Proof. intros H. unfold bind. now rewrite H. Qed.

Lemma bind_raise {A B : Type} (m : M A) (f : A -> M B) (st st' : State)
    (e : BaseException) :
  m st = (Raise e, st') -> bind m f st = (Raise e, st').
Proof. intros H. unfold bind. now rewrite H. Qed.

Lemma emit_run (ev : Event) (st : State) :
  emit ev st = (Ok tt, mkState (world st) (result st) (trace st ++ [ev])).
Proof. reflexivity. Qed.

Lemma call_run {A : Type} (ev : Event) (f : World -> Outcome A * World) (st : State) :
  call ev f st
  = (fst (f (world st)),
     mkState (snd (f (world st))) (result st) (trace st ++ [ev])).
Proof.
  unfold call, bind, emit, get_world, set_world, lift. simpl.
  destruct (f (world st)) as [o w']. reflexivity.
Qed.

Lemma query_run {A : Type} (ev : Event) (f : World -> Outcome A) (st : State) :
  query ev f st = (f (world st), mkState (world st) (result st) (trace st ++ [ev])).
Proof. reflexivity. Qed.

Lemma try_except_ok {A : Type} (body : M A) (handler : BaseException -> M A)
    (st st' : State) (a : A) :
  body st = (Ok a, st') -> try_except body handler st = (Ok a, st').
Proof. intros H. unfold try_except. now rewrite H. Qed.

Lemma try_except_raise {A : Type} (body : M A) (handler : BaseException -> M A)
    (st st' : State) (e : BaseException) :
  body st = (Raise e, st') ->
  try_except body handler st
  = if is_Exception e then handler e st' else (Raise e, st').
Proof. intros H. unfold try_except. now rewrite H. Qed.

Lemma PerfCounter_run {A : Type} (name : string) (body : M A) (st st' : State)
    (o : Outcome A) :
  body st = (o, st') ->
  PerfCounter name body st
  = (o, mkState (world st')
          (fold_left add_report (perf_counter_reports name (world st')) (result st'))
          (trace st')).
Proof. intros H. unfold PerfCounter. now rewrite H. Qed.

End RunFacts.

(** ** Extracting a chunk *)

Section ExtractFacts.
Context {X : Externals} (config : ExtractionConfig).

(** What [_extract_chunk] does after the [try] statement. *)
Lemma extract_chunk_fix_up (t : Task) (outdir : Path) (st : State) :
  bind (call_fix_extracted_directory outdir) (fun _ =>
    bind (query (CallExists outdir) (path_exists outdir)) (fun outdir_exists =>
      if outdir_exists
      then result_add_new_task (mkTask (extract_root config) outdir (depth t + 1))
      else ret tt)) st
  = let '(o, fix_reports, w') := fix_extracted_directory outdir (world st) in
    let r := fold_left add_report fix_reports (result st) in
    match o with
    | Raise e =>
        (Raise e, mkState w' r (trace st ++ [CallFixExtractedDirectory outdir]))
    | Ok _ =>
        match path_exists outdir w' with
        | Raise e =>
            (Raise e,
             mkState w' r
               (trace st ++ [CallFixExtractedDirectory outdir; CallExists outdir]))
        | Ok outdir_exists =>
            (Ok tt,
             mkState w'
               (if outdir_exists
                then add_new_task r (mkTask (extract_root config) outdir (depth t + 1))
                else r)
               (trace st ++ [CallFixExtractedDirectory outdir; CallExists outdir]))
        end
    end.
Proof.
  unfold call_fix_extracted_directory, query, bind, emit, get_world, set_world, lift.
  simpl. destruct (fix_extracted_directory outdir (world st)) as [[o rs] w'].
  simpl. rewrite for_each_add_report. simpl.
  destruct o as [[]|e]; simpl; [|reflexivity].
  destruct (path_exists outdir w') as [[|]|e]; simpl;
    unfold result_add_new_task, ret; simpl; rewrite <- app_assoc; reflexivity.
Qed.

(** The handler of the [try] statement in [_extract_chunk] does not raise. *)
Lemma extract_chunk_handler_total (exc : BaseException) (st : State) :
  exists st' : State,
    (match exc with
     | ExtractError reports => for_each reports result_add_report
     | _ =>
         bind (emit (LogException "Unknown error happened while extracting chunk"))
           (fun _ => result_add_report (UnknownError exc))
     end) st = (Ok tt, st').
Proof.
  destruct exc;
    [| rewrite for_each_add_report; eauto | | | | |];
    unfold bind, emit, result_add_report; simpl; eauto.
Qed.

(** X19. [_extract_chunk] stops at once if carving the chunk raises.  Once
    the chunk is carved, no exception of the class [Exception] that the
    extraction raises leaves [_extract_chunk]: what it raises is outside that
    class, or was raised by [fix_extracted_directory] or by the check that
    the output directory exists.  Unless an exception outside the class
    went through, the output directory is fixed up; and when
    [_extract_chunk] returns, the fix-up and the check were the last things
    it did. *)
Theorem extract_chunk_completes (t : Task) (extract_dir file : Path)
    (chunk : ValidChunk) (st : State) :
  match carve_valid_chunk extract_dir file chunk (world st) with
  | (Ok carved_path, _) =>
      let outdir := snd (get_extract_paths extract_dir carved_path) in
      exists (o : Outcome unit) (st' : State),
        _extract_chunk config t extract_dir file chunk st = (o, st')
        /\ ((exists events rest : list Event,
               trace st' = events ++ CallFixExtractedDirectory outdir :: rest)
            \/ (exists e, o = Raise e /\ is_Exception e = false))
        /\ (forall e, o = Raise e -> is_Exception e = true ->
              (exists w, fst (fst (fix_extracted_directory outdir w)) = Raise e)
              \/ (exists w, path_exists outdir w = Raise e))
        /\ (o = Ok tt ->
            exists events : list Event,
              trace st'
              = events ++ [CallFixExtractedDirectory outdir; CallExists outdir])
  | (Raise e, w) =>
      _extract_chunk config t extract_dir file chunk st
      = (Raise e,
         mkState w (result st) (trace st ++ [CallCarveValidChunk extract_dir chunk]))
  end.
Proof.
  unfold _extract_chunk.
  destruct (carve_valid_chunk extract_dir file chunk (world st)) as [[carved|e] w] eqn:E.
  - erewrite bind_ok; [|rewrite call_run, E; reflexivity].
    destruct (get_extract_paths extract_dir carved) as [inpath outdir]. simpl snd.
    cbv zeta.
    set (st1 := mkState w (result st) (trace st ++ [CallCarveValidChunk extract_dir chunk])).
    match goal with
    | |- context [try_except ?b ?h] => set (body := b); set (handler := h)
    end.
    destruct (try_except body handler st1) as [[[]|e] st2] eqn:Htry.
    + erewrite bind_ok; [|exact Htry]. rewrite extract_chunk_fix_up.
      destruct (fix_extracted_directory outdir (world st2)) as [[o rs] w'] eqn:Hfix.
      destruct o as [[]|e].
      * destruct (path_exists outdir w') as [b|e] eqn:Hex.
        -- eexists. eexists. split; [reflexivity|]. simpl. split; [|split].
           ++ left. exists (trace st2), [CallExists outdir]. reflexivity.
           ++ intros e He. discriminate.
           ++ intros _. exists (trace st2). reflexivity.
        -- eexists. eexists. split; [reflexivity|]. simpl. split; [|split].
           ++ left. exists (trace st2), [CallExists outdir]. reflexivity.
           ++ intros e' He' _. inversion He'; subst. right. eauto.
           ++ intros He'. discriminate.
      * eexists. eexists. split; [reflexivity|]. simpl. split; [|split].
        -- left. exists (trace st2), []. reflexivity.
        -- intros e' He' _. inversion He'; subst. left. exists (world st2).
           now rewrite Hfix.
        -- intros He'. discriminate.
    + assert (Hclass : is_Exception e = false).
      { unfold try_except in Htry. destruct (body st1) as [[[]|exc] st2'].
        - discriminate.
        - destruct (is_Exception exc) eqn:Hc.
          + subst handler. cbv beta in Htry.
            destruct (extract_chunk_handler_total exc st2') as [x Hx].
            rewrite Hx in Htry. discriminate.
          + inversion Htry; subst. exact Hc. }
      erewrite bind_raise; [|exact Htry].
      eexists. eexists. split; [reflexivity|]. split; [|split].
      * right. eauto.
      * intros e' He' Hc. inversion He'; subst. congruence.
      * intros He'. discriminate.
  - erewrite bind_raise; [reflexivity|]. rewrite call_run, E. reflexivity.
Qed.

End ExtractFacts.

Section ExtractOutcomes.
Context {X : Externals} (config : ExtractionConfig).

(** X20. A chunk whose handler has no extractor is not extracted: a debug
    line is logged, no output directory is made, no report is added for it,
    and the carved file stays, also when extracted chunks are not kept; with
    the fix-up and the existence check returning, a child task is enqueued
    only if the output directory exists. *)
Theorem extract_chunk_without_extractor (t : Task) (extract_dir file : Path)
    (chunk : ValidChunk) (h : Handler) (st : State)
    (carved_path inpath outdir : Path) (w1 w2 : World) (fix_reports : list Report)
    (outdir_exists : bool) :
  is_encrypted chunk = false ->
  handler chunk = Some h ->
  EXTRACTOR h = None ->
  carve_valid_chunk extract_dir file chunk (world st) = (Ok carved_path, w1) ->
  get_extract_paths extract_dir carved_path = (inpath, outdir) ->
  fix_extracted_directory outdir w1 = (Ok tt, fix_reports, w2) ->
  path_exists outdir w2 = Ok outdir_exists ->
  exists st' : State,
    _extract_chunk config t extract_dir file chunk st = (Ok tt, st')
    /\ trace st'
       = trace st ++ [CallCarveValidChunk extract_dir chunk;
                      LogDebug "Skipping file: no extractor.";
                      CallFixExtractedDirectory outdir;
                      CallExists outdir]
    /\ reports (result st') = reports (result st) ++ fix_reports
    /\ new_tasks (result st')
       = (if outdir_exists
          then new_tasks (result st)
               ++ [mkTask (extract_root config) outdir (depth t + 1)]
          else new_tasks (result st))
    /\ world st' = w2.
Proof.
  intros Henc Hh Hex Hcarve Hpaths Hfix Hexists.
  unfold _extract_chunk, call_fix_extracted_directory, call, query, bind, emit,
    get_world, set_world, lift.
  simpl. rewrite Hcarve. simpl. rewrite Hpaths.
  unfold try_except, ValidChunk_extract, Handler_extract, bind, emit, raise.
  rewrite Henc, Hh, Hex. simpl.
  rewrite Hfix. simpl. rewrite for_each_add_report. simpl. rewrite Hexists.
  destruct outdir_exists; eexists; (split; [reflexivity|]); simpl;
    rewrite fold_add_report_reports, fold_add_report_new_tasks;
    rewrite <- !app_assoc; simpl; repeat split.
Qed.


(** X22. A chunk whose extractor raises.  For an exception of the class
    [Exception]: the reports an [ExtractError] carries are added to the
    task's result in their order, any other one becomes one [UnknownError]
    report; the carved file is not removed; with the fix-up and the
    existence check returning, the output directory is still fixed up and,
    if it exists, becomes a task, so partial output is processed.  An
    exception outside the class [Exception] is not caught:
    [_extract_chunk] raises it, adds no report and does no fix-up. *)
Theorem extract_chunk_extractor_raises (t : Task) (extract_dir file : Path)
    (chunk : ValidChunk) (h : Handler) (extractor : Extractor) (st : State)
    (carved_path inpath outdir : Path) (w1 w2 w3 : World) (exc : BaseException) :
  is_encrypted chunk = false ->
  handler chunk = Some h ->
  EXTRACTOR h = Some extractor ->
  carve_valid_chunk extract_dir file chunk (world st) = (Ok carved_path, w1) ->
  get_extract_paths extract_dir carved_path = (inpath, outdir) ->
  mkdir outdir w1 = (Ok tt, w2) ->
  extractor_extract extractor inpath outdir w2 = (Raise exc, w3) ->
  (is_Exception exc = true ->
   forall (w4 : World) (fix_reports : list Report) (outdir_exists : bool),
     fix_extracted_directory outdir w3 = (Ok tt, fix_reports, w4) ->
     path_exists outdir w4 = Ok outdir_exists ->
     exists (st' : State) (logged : list Event),
       _extract_chunk config t extract_dir file chunk st = (Ok tt, st')
       /\ trace st'
          = trace st
            ++ [CallCarveValidChunk extract_dir chunk; CallMkdir outdir;
                CallExtractor extractor inpath outdir]
            ++ logged
            ++ [CallFixExtractedDirectory outdir; CallExists outdir]
       /\ Forall (fun ev => is_log ev = true) logged
       /\ reports (result st')
          = reports (result st) ++ reports_of_failure exc ++ fix_reports
       /\ new_tasks (result st')
          = (if outdir_exists
             then new_tasks (result st)
                  ++ [mkTask (extract_root config) outdir (depth t + 1)]
             else new_tasks (result st))
       /\ world st' = w4)
  /\ (is_Exception exc = false ->
      _extract_chunk config t extract_dir file chunk st
      = (Raise exc,
         mkState w3 (result st)
           (trace st
            ++ [CallCarveValidChunk extract_dir chunk; CallMkdir outdir;
                CallExtractor extractor inpath outdir]))).
Proof.
  intros Henc Hh Hex Hcarve Hpaths Hmk Hrun.
  unfold _extract_chunk, call_fix_extracted_directory, call, query, bind, emit,
    get_world, set_world, lift.
  simpl. rewrite Hcarve. simpl. rewrite Hpaths.
  unfold try_except, ValidChunk_extract, Handler_extract, call, bind, emit,
    get_world, set_world, lift, raise, ret.
  rewrite Henc, Hh, Hex. simpl. rewrite Hmk. simpl. rewrite Hrun. simpl.
  split.
  - intros Hclass w4 fix_reports outdir_exists Hfix Hexists. rewrite Hclass.
    destruct exc as [msg|ers| |msg|name| |code]; simpl; try discriminate Hclass.
    2: { rewrite for_each_add_report. simpl. rewrite Hfix. simpl.
         rewrite for_each_add_report. simpl. rewrite Hexists.
         destruct outdir_exists; eexists; exists [];
           (split; [reflexivity|]); simpl;
           rewrite !fold_add_report_reports, !fold_add_report_new_tasks;
           rewrite <- !app_assoc; simpl; repeat split; constructor. }
    all: rewrite Hfix; simpl; rewrite for_each_add_report; simpl; rewrite Hexists;
      destruct outdir_exists; eexists;
      exists [LogException "Unknown error happened while extracting chunk"];
      (split; [reflexivity|]); simpl;
      rewrite !fold_add_report_reports, !fold_add_report_new_tasks;
      rewrite <- !app_assoc; simpl; repeat split;
      try (rewrite <- !app_assoc; reflexivity); repeat constructor.
  - intros Hclass. rewrite Hclass. rewrite <- !app_assoc. reflexivity.
Qed.

End ExtractOutcomes.

(** ** The tasks a task enqueues *)

Section ChildFacts.
Context {X : Externals} (config : ExtractionConfig).
Variable P : Task -> Prop.

Lemma keeps_same {A : Type} (m : M A) :
  (forall st, new_tasks (result (snd (m st))) = new_tasks (result st)) ->
  keeps P m.
Proof. intros H st HP. now rewrite H. Qed.

Lemma keeps_ret {A : Type} (a : A) : keeps P (ret a).
Proof. now apply keeps_same. Qed.

Lemma keeps_raise {A : Type} (e : BaseException) : keeps P (raise (A := A) e).
Proof. now apply keeps_same. Qed.

Lemma keeps_lift {A : Type} (o : Outcome A) : keeps P (lift o).
Proof. now apply keeps_same. Qed.

Lemma keeps_emit (ev : Event) : keeps P (emit ev).
Proof. now apply keeps_same. Qed.

Lemma keeps_get_world : keeps P get_world.
Proof. now apply keeps_same. Qed.

Lemma keeps_set_world (w : World) : keeps P (set_world w).
Proof. now apply keeps_same. Qed.

Lemma keeps_call {A : Type} (ev : Event) (f : World -> Outcome A * World) :
  keeps P (call ev f).
Proof. apply keeps_same. intros st. now rewrite call_run. Qed.

Lemma keeps_query {A : Type} (ev : Event) (f : World -> Outcome A) :
  keeps P (query ev f).
Proof. now apply keeps_same. Qed.

Lemma keeps_add_report (r : Report) : keeps P (result_add_report r).
Proof. now apply keeps_same. Qed.

Lemma keeps_add_new_task (t : Task) : P t -> keeps P (result_add_new_task t).
Proof.
  intros Ht st HP. simpl. apply Forall_app. split; [assumption|].
  now constructor.
Qed.

Lemma keeps_bind {A B : Type} (m : M A) (f : A -> M B) :
  keeps P m -> (forall a, keeps P (f a)) -> keeps P (bind m f).
Proof.
  intros Hm Hf st HP. unfold bind. specialize (Hm st HP).
  destruct (m st) as [[a|e] st1]; simpl in *; [|assumption].
  now apply Hf.
Qed.

(** The statement after a call sees a value the call returned. *)
Lemma keeps_bind_call {A B : Type} (ev : Event) (f : World -> Outcome A * World)
    (k : A -> M B) :
  (forall (a : A) (w : World), fst (f w) = Ok a -> keeps P (k a)) ->
  keeps P (bind (call ev f) k).
Proof.
  intros Hk st HP. unfold bind. rewrite call_run.
  destruct (fst (f (world st))) as [a|e] eqn:E; simpl; [|assumption].
  apply (Hk a (world st) E). assumption.
Qed.

Lemma keeps_bind_query {A B : Type} (ev : Event) (f : World -> Outcome A)
    (k : A -> M B) :
  (forall (a : A) (w : World), f w = Ok a -> keeps P (k a)) ->
  keeps P (bind (query ev f) k).
Proof.
  intros Hk st HP. unfold bind. rewrite query_run.
  destruct (f (world st)) as [a|e] eqn:E; simpl; [|assumption].
  apply (Hk a (world st) E). assumption.
Qed.

Lemma keeps_try_except {A : Type} (body : M A) (handler : BaseException -> M A) :
  keeps P body -> (forall e, keeps P (handler e)) -> keeps P (try_except body handler).
Proof.
  intros Hb Hh st HP. unfold try_except. specialize (Hb st HP).
  destruct (body st) as [[a|e] st1]; simpl in *; [assumption|].
  destruct (is_Exception e); [now apply Hh|assumption].
Qed.

Lemma keeps_for_each {A : Type} (l : list A) (body : A -> M unit) :
  (forall a, In a l -> keeps P (body a)) -> keeps P (for_each l body).
Proof.
  induction l as [|a l IH]; intros Hb; simpl.
  - apply keeps_ret.
  - apply keeps_bind; [apply Hb; now left|intros _; apply IH].
    intros x Hx. apply Hb. now right.
Qed.

Lemma keeps_PerfCounter {A : Type} (name : string) (body : M A) :
  keeps P body -> keeps P (PerfCounter name body).
Proof.
  intros Hb st HP. unfold PerfCounter. specialize (Hb st HP).
  destruct (body st) as [o st1]. simpl in *.
  now rewrite fold_add_report_new_tasks.
Qed.

Ltac keeps_step :=
  lazymatch goal with
  | |- keeps _ (ret _) => apply keeps_ret
  | |- keeps _ (raise _) => apply keeps_raise
  | |- keeps _ (lift _) => apply keeps_lift
  | |- keeps _ (emit _) => apply keeps_emit
  | |- keeps _ get_world => apply keeps_get_world
  | |- keeps _ (set_world _) => apply keeps_set_world
  | |- keeps _ (call _ _) => apply keeps_call
  | |- keeps _ (query _ _) => apply keeps_query
  | |- keeps _ (result_add_report _) => apply keeps_add_report
  | |- keeps _ (PerfCounter _ _) => apply keeps_PerfCounter
  | |- keeps _ (for_each _ _) => apply keeps_for_each; intros ? ?
  | |- keeps _ (try_except _ _) => apply keeps_try_except; [|intros ?]
  | |- keeps _ (bind (call _ _) _) => apply keeps_bind_call; intros ? ? ?
  | |- keeps _ (bind (query _ _) _) => apply keeps_bind_query; intros ? ? ?
  | |- keeps _ (bind _ _) => apply keeps_bind; [|intros ?]
  | |- keeps _ (if ?b then _ else _) => destruct b
  | |- keeps _ (match ?x with _ => _ end) => destruct x eqn:?
  end.

Lemma keeps_calculate_entropies (t : Task) (paths : list Path) :
  keeps P (_calculate_entropies config t paths).
Proof. unfold _calculate_entropies. repeat keeps_step. Qed.

Lemma keeps_call_fix_extracted_directory (outdir : Path) :
  keeps P (call_fix_extracted_directory outdir).
Proof. unfold call_fix_extracted_directory. repeat keeps_step. Qed.

Variable t : Task.
Hypothesis P_entry :
  forall (w : World) (entries : list Path) (p : Path),
    iterdir (path t) w = Ok entries -> In p entries ->
    P (mkTask (root t) p (depth t)).
Hypothesis P_outdir :
  forall (w1 w2 w3 : World) (extract_dir file carved_path : Path) (chunk : ValidChunk),
    fst (make_extract_dir (root t) (path t) (extract_root config) w1) = Ok extract_dir ->
    fst (carve_valid_chunk extract_dir file chunk w2) = Ok carved_path ->
    path_exists (snd (get_extract_paths extract_dir carved_path)) w3 = Ok true ->
    P (mkTask (extract_root config)
         (snd (get_extract_paths extract_dir carved_path)) (depth t + 1)).
Hypothesis search_keeps :
  forall (p file : Path) (size : Z) (hs : Handlers) (r : TaskResult) (w : World),
    new_tasks (snd (search_chunks_by_priority p file size hs r w)) = new_tasks r.

Lemma keeps_extract_chunk (w1 : World) (extract_dir file : Path) (chunk : ValidChunk) :
  fst (make_extract_dir (root t) (path t) (extract_root config) w1) = Ok extract_dir ->
  keeps P (_extract_chunk config t extract_dir file chunk).
Proof.
  intros Hdir. unfold _extract_chunk.
  apply keeps_bind_call. intros carved_path w2 Hcarve.
  destruct (get_extract_paths extract_dir carved_path) as [inpath outdir] eqn:Hpaths.
  apply keeps_bind.
  { unfold ValidChunk_extract, Handler_extract. repeat keeps_step. }
  intros _. apply keeps_bind; [apply keeps_call_fix_extracted_directory|].
  intros _. apply keeps_bind_query. intros outdir_exists w3 Hexists.
  destruct outdir_exists; [|apply keeps_ret].
  apply keeps_add_new_task.
  replace outdir with (snd (get_extract_paths extract_dir carved_path)) in *
    by (rewrite Hpaths; reflexivity).
  exact (P_outdir w1 w2 w3 extract_dir file carved_path chunk Hdir Hcarve Hexists).
Qed.

Lemma keeps_process_chunks (file : Path) (outer_chunks : list ValidChunk)
    (unknown_chunks : list UnknownChunk) :
  keeps P (_process_chunks config t file outer_chunks unknown_chunks).
Proof.
  unfold _process_chunks.
  apply keeps_bind_call. intros extract_dir w1 Hdir.
  repeat keeps_step.
  - apply keeps_calculate_entropies.
  - apply (keeps_extract_chunk w1). exact Hdir.
Qed.

Lemma keeps_call_remove_inner_chunks (chunks : list ValidChunk) :
  keeps P (call_remove_inner_chunks chunks).
Proof. unfold call_remove_inner_chunks. repeat keeps_step. Qed.

Lemma keeps_FileTask_process (size : Z) : keeps P (FileTask_process config t size).
Proof.
  unfold FileTask_process.
  apply keeps_bind; [apply keeps_emit|]. intros _.
  apply keeps_bind; [apply keeps_query|]. intros file.
  apply keeps_bind.
  { apply keeps_PerfCounter. apply keeps_bind; [apply keeps_emit|]. intros _.
    apply keeps_same. intros st.
    pose proof (search_keeps (path t) file size (handlers config)
                  (result st) (world st)) as H.
    destruct (search_chunks_by_priority _ _ _ _ _ _) as [o r']. exact H. }
  intros all_chunks.
  apply keeps_bind; [apply keeps_call_remove_inner_chunks|]. intros outer_chunks.
  apply keeps_bind; [apply keeps_lift|]. intros unknown_chunks.
  destruct (_ || _).
  - apply keeps_process_chunks.
  - apply keeps_PerfCounter, keeps_calculate_entropies.
Qed.

Lemma keeps_process_task : keeps P (_process_task config t).
Proof.
  unfold _process_task.
  destruct (_ >=? _); [apply keeps_emit|].
  destruct (negb _); [apply keeps_emit|].
  apply keeps_bind; [apply keeps_query|]. intros [mode size].
  destruct (S_ISDIR mode).
  - apply keeps_bind; [apply keeps_emit|]. intros _.
    apply keeps_bind_query. intros entries w Hentries.
    apply keeps_for_each. intros p Hp.
    apply keeps_add_new_task. exact (P_entry w entries p Hentries Hp).
  - destruct (S_ISLNK mode); [apply keeps_emit|].
    destruct (size =? 0); [apply keeps_emit|].
    apply keeps_PerfCounter, keeps_FileTask_process.
Qed.

Lemma process_task_keeps (st st' : State) (o : Outcome TaskResult) :
  process_task config t st = (o, st') ->
  Forall P (new_tasks (result st'))
  /\ forall r, o = Ok r -> r = result st'.
Proof.
  unfold process_task. unfold bind at 1. cbv beta iota.
  set (st0 := mkState (world st) (TaskResult_init t) (trace st)).
  assert (H0 : Forall P (new_tasks (result st0))) by constructor.
  assert (Hk : keeps P (try_except (PerfCounter "Process Task" (_process_task config t))
                          (fun exc => _process_error exc))).
  { apply keeps_try_except; [apply keeps_PerfCounter, keeps_process_task|].
    intros e. unfold _process_error. repeat keeps_step. }
  specialize (Hk st0 H0). unfold bind.
  destruct (try_except _ _ st0) as [[[]|e] st1]; simpl in *; intros H;
    inversion H; subst; split; auto; intros r Hr; inversion Hr; reflexivity.
Qed.

End ChildFacts.

(** X23. Every task a task enqueues is one of two kinds.  It is an entry
    [iterdir] returned for the task's path, under the task's root and at the
    task's depth.  Or it is the output directory [get_extract_paths] gives
    for a chunk carved into the task's extraction directory, found to exist,
    under the extraction root and exactly one level deeper.  So the depth
    never decreases and grows by one at most.  (The finder is taken not to
    enqueue tasks.) *)
Theorem process_task_children {X : Externals} (config : ExtractionConfig)
    (t : Task) (st st' : State) (r : TaskResult) :
  (forall (p file : Path) (size : Z) (hs : Handlers) (r0 : TaskResult) (w : World),
      new_tasks (snd (search_chunks_by_priority p file size hs r0 w)) = new_tasks r0) ->
  process_task config t st = (Ok r, st') ->
  Forall (fun t' : Task =>
            child_of config t t' /\ depth t <= depth t' <= depth t + 1)
    (new_tasks r).
Proof.
  intros Hsearch Hrun.
  assert (Hentry : forall (w : World) (entries : list Path) (p : Path),
            iterdir (path t) w = Ok entries -> In p entries ->
            child_of config t (mkTask (root t) p (depth t))).
  { intros w entries p Hit Hp. left. simpl. repeat split. eauto. }
  assert (Houtdir :
    forall (w1 w2 w3 : World) (extract_dir file carved_path : Path) (chunk : ValidChunk),
      fst (make_extract_dir (root t) (path t) (extract_root config) w1) = Ok extract_dir ->
      fst (carve_valid_chunk extract_dir file chunk w2) = Ok carved_path ->
      path_exists (snd (get_extract_paths extract_dir carved_path)) w3 = Ok true ->
      child_of config t
        (mkTask (extract_root config)
           (snd (get_extract_paths extract_dir carved_path)) (depth t + 1))).
  { intros w1 w2 w3 d file c chunk Hd Hc He. right. simpl. repeat split.
    exists w1, w2, w3, d, file, c, chunk. auto. }
  destruct (process_task_keeps config (child_of config t) t Hentry Houtdir
              Hsearch st st' (Ok r) Hrun) as [Hall Hr].
  rewrite (Hr r eq_refl). eapply Forall_impl; [|exact Hall].
  intros t' Hc. split; [assumption|].
  destruct Hc as [[_ [Hd _]]|[_ [Hd _]]]; lia.
Qed.

(** ** What the gap computation raises *)

Lemma Chunk_init_raise_invalid (s e : Z) (x : BaseException) :
  Chunk_init s e = Raise x -> exists msg, x = InvalidInputFormat msg.
Proof.
  unfold Chunk_init, chunk_error. cbv zeta.
  destruct (_ || _); [intros H; inversion H; eauto|].
  destruct (s >=? e); intros H; inversion H; eauto.
Qed.

Lemma UnknownChunk_init_raise_invalid (s e : Z) (x : BaseException) :
  UnknownChunk_init s e = Raise x -> exists msg, x = InvalidInputFormat msg.
Proof.
  unfold UnknownChunk_init. destruct (Chunk_init s e) as [c|y] eqn:E; simpl.
  - discriminate.
  - intros H. inversion H; subst. exact (Chunk_init_raise_invalid _ _ _ E).
Qed.

Lemma gaps_between_raise_invalid (pairs : list (Chunk * Chunk))
    (acc : list UnknownChunk) (x : BaseException) :
  gaps_between pairs acc = Raise x -> exists msg, x = InvalidInputFormat msg.
Proof.
  revert acc. induction pairs as [|[c n] pairs IH]; intros acc; simpl.
  - discriminate.
  - destruct (negb _); [|apply IH].
    destruct (UnknownChunk_init _ _) as [u|y] eqn:E; simpl; [apply IH|].
    intros H. inversion H; subst. exact (UnknownChunk_init_raise_invalid _ _ _ E).
Qed.

Lemma calculate_unknown_chunks_raise_invalid (chunks : list ValidChunk) (S : Z)
    (x : BaseException) :
  calculate_unknown_chunks chunks S = Raise x ->
  chunks <> [] /\ exists msg, x = InvalidInputFormat msg.
Proof.
  rewrite calculate_unknown_chunks_gaps.
  destruct chunks as [|c0 chunks0]; [discriminate|]. split; [discriminate|].
  revert H. generalize (c0 :: chunks0). intros chunks.
  destruct (_ || _); [discriminate|].
  generalize (map valid_base (sorted by_start false chunks)). intros L.
  destruct L as [|a l]; [discriminate|]. unfold gaps_of.
  destruct (negb (start_offset a =? 0)).
  - destruct (UnknownChunk_init 0 (start_offset a)) as [u|y] eqn:E0; cbn [obind].
    + destruct (gaps_between (pairwise (a :: l)) [u]) as [u1|y] eqn:E1; cbn [obind].
      * cbv zeta. destruct (_ <? S); [|discriminate].
        destruct (UnknownChunk_init _ S) as [v|y] eqn:E2; cbn [obind]; [discriminate|].
        intros H. inversion H; subst. exact (UnknownChunk_init_raise_invalid _ _ _ E2).
      * intros H. inversion H; subst. exact (gaps_between_raise_invalid _ _ _ E1).
    + intros H. inversion H; subst. exact (UnknownChunk_init_raise_invalid _ _ _ E0).
  - cbn [obind].
    destruct (gaps_between (pairwise (a :: l)) []) as [u1|y] eqn:E1; cbn [obind].
    + cbv zeta. destruct (_ <? S); [|discriminate].
      destruct (UnknownChunk_init _ S) as [v|y] eqn:E2; cbn [obind]; [discriminate|].
      intros H. inversion H; subst. exact (UnknownChunk_init_raise_invalid _ _ _ E2).
    + intros H. inversion H; subst. exact (gaps_between_raise_invalid _ _ _ E1).
Qed.

(** ** Regular files *)

Section FileFacts.
Context {X : Externals} (config : ExtractionConfig).


(** X25. When [calculate_unknown_chunks] raises on the outer chunks of a
    file, as it does when two of them overlap, the file is given up:
    nothing is carved or extracted, no extraction directory is made, and the
    exception becomes the last report of the task, an [UnknownError]. *)
Theorem process_task_reconcile_error (t : Task) (st : State) (mode size : Z)
    (file : Path) (found : list ValidChunk) (r1 : TaskResult) (e : BaseException) :
  depth t < max_depth config ->
  valid_path (path t) = true ->
  lstat (path t) (world st) = Ok (mode, size) ->
  S_ISDIR mode = false -> S_ISLNK mode = false -> size <> 0 ->
  open_rb (path t) (world st) = Ok file ->
  search_chunks_by_priority (path t) file size (handlers config)
    (TaskResult_init t) (world st) = (Ok found, r1) ->
  calculate_unknown_chunks (remove_inner_chunks found) size = Raise e ->
  exists (r : TaskResult) (st' : State),
    process_task config t st = (Ok r, st')
    /\ trace st'
       = trace st
         ++ [CallLstat (path t); LogDebug "Processing file"; CallOpen (path t);
             CallSearchChunks (path t); LogDebug "Removed inner chunks";
             LogException "Unknown error happened"]
    /\ reports r
       = reports r1
         ++ perf_counter_reports "Search Chunks" (world st)
         ++ perf_counter_reports "Process Regular File" (world st)
         ++ perf_counter_reports "Process Task" (world st)
         ++ [UnknownError e]
    /\ new_tasks r = new_tasks r1
    /\ world st' = world st.
Proof.
  intros Hd Hvp Hl Hdir Hlnk Hsize Hopen Hsearch Hraise.
  destruct (calculate_unknown_chunks_raise_invalid _ _ _ Hraise) as [Houter [msg ->]].
  assert (Hfound : is_empty found = false).
  { destruct found; [contradiction Houter; reflexivity|reflexivity]. }
  unfold process_task, bind, try_except, PerfCounter, _process_task.
  simpl. destruct (Z.geb_spec (depth t) (max_depth config)) as [Hge|_]; [lia|].
  rewrite Hvp. simpl.
  unfold query, bind, emit, get_world, lift. simpl. rewrite Hl. simpl.
  rewrite Hdir, Hlnk. destruct (Z.eqb_spec size 0) as [|_]; [contradiction|].
  unfold FileTask_process, call_remove_inner_chunks, PerfCounter, query, bind,
    emit, get_world, lift, ret.
  simpl. rewrite Hopen. simpl. rewrite Hsearch. simpl. rewrite Hfound. simpl.
  rewrite Hraise. simpl.
  eexists. eexists. split; [reflexivity|]. simpl.
  rewrite !fold_add_report_reports, !fold_add_report_new_tasks.
  rewrite <- !app_assoc. repeat split.
Qed.

End FileFacts.

(** ** The task properties on concrete inputs *)

Lemma process_task_directory_witness :
  exists (r : TaskResult) (st' : @State (directory_world)),
    process_task default_config (mkTask "in" "in" 0)
      (initial_state directory_world tt (mkTask "in" "in" 0)) = (Ok r, st')
    /\ new_tasks r = [mkTask "in" "in/a" 0; mkTask "in" "in/b" 0].
Proof.
  destruct (process_task_directory
              (X := directory_world)
              default_config (mkTask "in" "in" 0)
              (initial_state directory_world tt (mkTask "in" "in" 0)) 16877 4096 ["in/a"%string; "in/b"%string])
    as [r [st' [H1 [H2 _]]]]; try reflexivity.
  exists r, st'. split; [exact H1|exact H2].
Defined.

Lemma process_task_skips_witness :
  exists (r : TaskResult) (st' : @State (symlink_world)),
    process_task default_config (mkTask "in" "in/link" 0)
      (initial_state symlink_world tt (mkTask "in" "in/link" 0)) = (Ok r, st')
    /\ new_tasks r = [].
Proof.
  destruct (process_task_skips
              (X := symlink_world)
              default_config (mkTask "in" "in/link" 0)
              (initial_state symlink_world tt (mkTask "in" "in/link" 0)))
    as [r [st' [events [H1 [H2 _]]]]].
  - reflexivity.
  - right. exists 41471, 7. repeat split; try reflexivity. left. reflexivity.
  - exists r, st'. split; [exact H1|exact H2].
Defined.

Lemma extract_chunk_without_extractor_witness :
  exists st' : @State (quiet_world),
    _extract_chunk default_config (mkTask "in" "in/fw.bin" 0)
      "out/fw.bin_extract" "in/fw.bin"
      (mkValidChunk (mkChunk 0 64) (Some (mkHandler "chk" None)) false)
      (initial_state quiet_world tt (mkTask "in" "in/fw.bin" 0)) = (Ok tt, st')
    /\ reports (result st') = [].
Proof.
  destruct (extract_chunk_without_extractor
              (X := quiet_world)
              default_config (mkTask "in" "in/fw.bin" 0)
              "out/fw.bin_extract" "in/fw.bin"
              (mkValidChunk (mkChunk 0 64) (Some (mkHandler "chk" None)) false)
              (mkHandler "chk" None)
              (initial_state quiet_world tt (mkTask "in" "in/fw.bin" 0))
              "out/fw.bin_extract/chunk" "out/fw.bin_extract/chunk"
              "out/fw.bin_extract/chunk_extract" tt tt [] false
              eq_refl eq_refl eq_refl eq_refl eq_refl eq_refl eq_refl)
    as [st' [H1 [_ [H2 _]]]].
  exists st'. split; [exact H1|exact H2].
Defined.


Lemma extract_chunk_extractor_raises_witness :
  exists st' : @State (failing_zip_world),
    _extract_chunk default_config (mkTask "in" "in/fw.bin" 0)
      "out/fw.bin_extract" "in/fw.bin" (zip_chunk 0 16)
      (initial_state failing_zip_world tt (mkTask "in" "in/fw.bin" 0)) = (Ok tt, st')
    /\ reports (result st') = [ErrorReport ERROR "7z failed"].
Proof.
  destruct (extract_chunk_extractor_raises
              (X := failing_zip_world)
              default_config (mkTask "in" "in/fw.bin" 0)
              "out/fw.bin_extract" "in/fw.bin" (zip_chunk 0 16)
              zip_handler (mkExtractor ["7z"%string])
              (initial_state failing_zip_world tt (mkTask "in" "in/fw.bin" 0))
              "out/fw.bin_extract/chunk" "out/fw.bin_extract/chunk"
              "out/fw.bin_extract/chunk_extract" tt tt tt
              (ExtractError [ErrorReport ERROR "7z failed"])
              eq_refl eq_refl eq_refl eq_refl eq_refl eq_refl eq_refl)
    as [Hcaught _].
  destruct (Hcaught eq_refl tt [] true eq_refl eq_refl)
    as [st' [logged [H1 [_ [_ [H2 _]]]]]].
  exists st'. split; [exact H1|exact H2].
Defined.

Lemma process_task_children_witness :
  match process_task (X := zip_world)
          default_config (mkTask "in" "in/fw.bin" 0)
          (initial_state zip_world tt (mkTask "in" "in/fw.bin" 0)) with
  | (Ok r, _) =>
      Forall (fun t' : Task =>
                child_of (X := zip_world) default_config
                  (mkTask "in" "in/fw.bin" 0) t'
                /\ 0 <= depth t' <= 0 + 1)
        (new_tasks r)
  | (Raise _, _) => False
  end.
Proof.
  destruct (process_task (X := zip_world)
              default_config (mkTask "in" "in/fw.bin" 0)
              (initial_state zip_world tt (mkTask "in" "in/fw.bin" 0)))
    as [[r|e] st'] eqn:E.
  - apply (process_task_children (X := zip_world) default_config
             (mkTask "in" "in/fw.bin" 0)
             (initial_state zip_world tt (mkTask "in" "in/fw.bin" 0)) st' r);
      [intros; reflexivity|exact E].
  - vm_compute in E. discriminate E.
Defined.


Lemma process_task_reconcile_error_witness :
  exists (r : TaskResult)
         (st' : @State (overlap_world)),
    process_task default_config (mkTask "in" "in/fw.bin" 0)
      (initial_state overlap_world tt (mkTask "in" "in/fw.bin" 0)) = (Ok r, st')
    /\ reports r
       = [UnknownError
            (InvalidInputFormat
               "Chunk has higher start_offset than end_offset: 0xa-0x5")]
    /\ new_tasks r = [].
Proof.
  destruct (process_task_reconcile_error
              (X := overlap_world)
              default_config (mkTask "in" "in/fw.bin" 0)
              (initial_state overlap_world tt (mkTask "in" "in/fw.bin" 0)) 33188 15
              "in/fw.bin" [chunk_at 0 10; chunk_at 5 15]
              (TaskResult_init (mkTask "in" "in/fw.bin" 0))
              (InvalidInputFormat
                 "Chunk has higher start_offset than end_offset: 0xa-0x5"))
    as [r [st' [H1 [_ [H2 [H3 _]]]]]]; try reflexivity; try (simpl; lia).
  exists r, st'. split; [exact H1|]. split; [exact H2|exact H3].
Defined.

(** ** More on files and entropy *)

Section MoreFileFacts.
Context {X : Externals} (config : ExtractionConfig).

(** X26. When the extraction directory of a file with chunks cannot be made,
    the file is given up before anything is carved and the task enqueues
    nothing.  An exception of the class [Exception] that
    [make_extract_dir] raises becomes the last report of the task, an
    [UnknownError]; an exception outside that class is raised by
    [process_task]. *)
Theorem process_task_extract_dir_error (t : Task) (st : State) (mode size : Z)
    (file : Path) (found : list ValidChunk) (r1 : TaskResult)
    (unknown : list UnknownChunk) (e : BaseException) (w1 : World) :
  depth t < max_depth config ->
  valid_path (path t) = true ->
  lstat (path t) (world st) = Ok (mode, size) ->
  S_ISDIR mode = false -> S_ISLNK mode = false -> size <> 0 ->
  open_rb (path t) (world st) = Ok file ->
  search_chunks_by_priority (path t) file size (handlers config)
    (TaskResult_init t) (world st) = (Ok found, r1) ->
  found <> [] ->
  calculate_unknown_chunks (remove_inner_chunks found) size = Ok unknown ->
  make_extract_dir (root t) (path t) (extract_root config) (world st) = (Raise e, w1) ->
  exists (o : Outcome TaskResult) (st' : State),
    process_task config t st = (o, st')
    /\ trace st'
       = trace st
         ++ [CallLstat (path t); LogDebug "Processing file"; CallOpen (path t);
             CallSearchChunks (path t); LogDebug "Removed inner chunks";
             CallMakeExtractDir (path t)]
         ++ (if is_Exception e then [LogException "Unknown error happened"] else [])
    /\ new_tasks (result st') = new_tasks r1
    /\ reports (result st')
       = reports r1
         ++ perf_counter_reports "Search Chunks" (world st)
         ++ perf_counter_reports "Process Regular File" w1
         ++ perf_counter_reports "Process Task" w1
         ++ (if is_Exception e then [UnknownError e] else [])
    /\ o = (if is_Exception e then Ok (result st') else Raise e).
Proof.
  intros Hd Hvp Hl Hdir Hlnk Hsize Hopen Hsearch Hfound Hgaps Hmk.
  pose proof (remove_inner_chunks_nonempty found Hfound) as Houter.
  assert (Hne : is_empty found = false).
  { destruct found; [contradiction Hfound; reflexivity|reflexivity]. }
  unfold process_task, bind, try_except, PerfCounter, _process_task.
  simpl. destruct (Z.geb_spec (depth t) (max_depth config)) as [Hge|_]; [lia|].
  rewrite Hvp. simpl.
  unfold query, bind, emit, get_world, lift. simpl. rewrite Hl. simpl.
  rewrite Hdir, Hlnk. destruct (Z.eqb_spec size 0) as [|_]; [contradiction|].
  unfold FileTask_process, call_remove_inner_chunks, PerfCounter, query, bind,
    emit, get_world, lift, ret.
  simpl. rewrite Hopen. simpl. rewrite Hsearch. simpl. rewrite Hne. simpl.
  rewrite Hgaps. simpl.
  destruct (remove_inner_chunks found) as [|c outer]; [congruence|]. simpl.
  unfold _process_chunks, call, bind, emit, get_world, set_world, lift. simpl.
  rewrite Hmk. simpl.
  destruct (is_Exception e); simpl;
    eexists; eexists; (split; [reflexivity|]); simpl;
    rewrite !fold_add_report_reports, !fold_add_report_new_tasks;
    rewrite <- ?app_assoc, ?app_nil_r; simpl; repeat split;
    rewrite <- ?app_assoc; reflexivity.
Qed.



End MoreFileFacts.

Lemma process_task_extract_dir_error_witness :
  exists (o : Outcome TaskResult) (st' : @State full_disk_world),
    process_task default_config (mkTask "in" "in/fw.bin" 0)
      (initial_state full_disk_world tt (mkTask "in" "in/fw.bin" 0)) = (o, st')
    /\ reports (result st') = [UnknownError (OSError "No space left on device")]
    /\ new_tasks (result st') = []
    /\ o = Ok (result st').
Proof.
  destruct (process_task_extract_dir_error (X := full_disk_world)
              default_config (mkTask "in" "in/fw.bin" 0)
              (initial_state full_disk_world tt (mkTask "in" "in/fw.bin" 0)) 33188 64
              "in/fw.bin" [zip_chunk 0 16]
              (TaskResult_init (mkTask "in" "in/fw.bin" 0))
              [mkUnknownChunk (mkChunk 16 64)]
              (OSError "No space left on device") tt)
    as [o [st' [H1 [_ [H2 [H3 H4]]]]]]; try reflexivity; try (simpl; lia);
    try discriminate.
  exists o, st'. split; [exact H1|]. split; [exact H3|]. split; [exact H2|exact H4].
Defined.

